(** * mold: identical code folding and the x86-64 relocation engine

    A shallow embedding of [is_eligible], [compute_digest], the
    propagation and merge loops of [icf_sections], and of
    [InputSection::scan_relocations], [apply_reloc_alloc] and
    [apply_reloc_nonalloc], followed by the properties established
    about them.  Machine integers are [Z] with the wrap-around written
    out, byte strings are lists of [Z] in [0, 256), vectors are lists
    read with [!!], and pointers are [nat] handles into explicit stores. *)

From Stdlib Require Import ZArith Lia Bool Ascii String Sorted.
From stdpp Require Import base tactics option list numbers gmap strings.

Local Open Scope Z_scope.

(** ** ELF constants (System V ABI, x86-64 psABI) *)

Definition SHF_WRITE : Z := 1.
Definition SHF_ALLOC : Z := 2.
Definition SHF_EXECINSTR : Z := 4.

Definition SHT_PROGBITS : Z := 1.
Definition SHT_NOBITS : Z := 8.
Definition SHT_INIT_ARRAY : Z := 14.
Definition SHT_FINI_ARRAY : Z := 15.

Definition STT_FUNC : Z := 2.
Definition STT_GNU_IFUNC : Z := 10.

Definition R_X86_64_NONE : Z := 0.
Definition R_X86_64_64 : Z := 1.
Definition R_X86_64_PC32 : Z := 2.
Definition R_X86_64_GOT32 : Z := 3.
Definition R_X86_64_PLT32 : Z := 4.
Definition R_X86_64_RELATIVE : Z := 8.
Definition R_X86_64_GOTPCREL : Z := 9.
Definition R_X86_64_32 : Z := 10.
Definition R_X86_64_32S : Z := 11.
Definition R_X86_64_16 : Z := 12.
Definition R_X86_64_PC16 : Z := 13.
Definition R_X86_64_8 : Z := 14.
Definition R_X86_64_PC8 : Z := 15.
Definition R_X86_64_DTPOFF64 : Z := 17.
Definition R_X86_64_TPOFF64 : Z := 18.
Definition R_X86_64_TLSGD : Z := 19.
Definition R_X86_64_TLSLD : Z := 20.
Definition R_X86_64_DTPOFF32 : Z := 21.
Definition R_X86_64_GOTTPOFF : Z := 22.
Definition R_X86_64_TPOFF32 : Z := 23.
Definition R_X86_64_PC64 : Z := 24.
Definition R_X86_64_GOTPC32 : Z := 26.
Definition R_X86_64_GOTPCRELX : Z := 41.
Definition R_X86_64_REX_GOTPCRELX : Z := 42.

(** [sizeof(ElfRela)]: an offset, a packed type/symbol word, an addend. *)
Definition sizeof_ElfRela : Z := 24.

(** ** Fixed-width integers *)

Definition u8 (v : Z) : Z := v mod 2 ^ 8.
Definition u16 (v : Z) : Z := v mod 2 ^ 16.
Definition u32 (v : Z) : Z := v mod 2 ^ 32.
Definition u64 (v : Z) : Z := v mod 2 ^ 64.

(** Two's-complement reading of the low [w] bits of [v]. *)
Definition sext (w : Z) (v : Z) : Z :=
  let m := v mod 2 ^ w in
  if m <? 2 ^ (w - 1) then m else m - 2 ^ w.

Definition i8 (v : Z) : Z := sext 8 v.
Definition i16 (v : Z) : Z := sext 16 v.
Definition i32 (v : Z) : Z := sext 32 v.
Definition i64 (v : Z) : Z := sext 64 v.

(** The [n] low bytes of [v], least significant first (the target and
    the host are little-endian). *)
Fixpoint le_bytes (n : nat) (v : Z) : list Z :=
  match n with
  | O => []
  | S n' => v mod 256 :: le_bytes n' (v / 256)
  end.

(** ** Data model *)

Record ElfShdr := {
  sh_type : Z;
  sh_flags : Z;
  sh_addr : Z;
  sh_offset : Z;
  sh_size : Z
}.

Record ElfRela := {
  r_offset : Z;
  r_type : Z;
  r_sym : nat;
  r_addend : Z
}.

(** A piece of a mergeable section: its bytes and, after layout, its
    address ([get_addr()]). *)
Record SectionFragment := {
  frag_data : list Z;
  frag_addr : Z
}.

Record SectionFragmentRef := {
  ref_frag : SectionFragment;
  ref_addend : Z
}.

(** Modelled from the spec: the enumeration [RelType] is declared in
    the header mold.h, which is not among the sources.  The spec gives
    the closed set of relocation kinds with NONE first, so [R_NONE] is
    the value of a zero-initialised slot of [rel_types]. *)
Inductive RelType :=
  | R_NONE | R_ABS | R_ABS_DYN | R_DYN | R_PC | R_GOT | R_GOTPC
  | R_GOTPCREL | R_TLSGD | R_TLSGD_RELAX_LE | R_TLSLD | R_TLSLD_RELAX_LE
  | R_DTPOFF | R_TPOFF | R_GOTTPOFF.

Global Instance RelType_eq_dec : EqDecision RelType.
Proof. solve_decision. Defined.

(** Modelled from the spec: the demand flags of a symbol are bit masks
    declared in mold.h; only their being distinct single bits is used. *)
Definition NEEDS_GOT : Z := 1.
Definition NEEDS_PLT : Z := 2.
Definition NEEDS_GOTTPOFF : Z := 4.
Definition NEEDS_TLSGD : Z := 8.
Definition NEEDS_TLSLD : Z := 16.
Definition NEEDS_COPYREL : Z := 32.
Definition NEEDS_DYNSYM : Z := 64.

(** A symbol.  [sym_file] is the owning file ([None] for the null
    pointer), [sym_input_section] and [sym_frag] are the section or
    fragment defining it.  The predicate [is_relative()] and the
    address accessors are declared in mold.h; they are carried as
    attributes whose values the resolver and the layout have fixed. *)
Record Symbol := {
  sym_name : string;
  sym_file : option nat;
  sym_input_section : option nat;
  sym_frag : option SectionFragment;
  sym_value : Z;
  st_type : Z;
  sym_flags : Z;
  plt_idx : Z;
  dynsym_idx : Z;
  is_placeholder : bool;
  is_imported : bool;
  is_relative : bool;
  get_addr : Z;
  get_plt_addr : Z;
  get_got_addr : Z;
  get_tlsgd_addr : Z;
  get_gottpoff_addr : Z
}.

Definition set_sym_flags (sym : Symbol) (fl : Z) : Symbol :=
  {| sym_name := sym_name sym; sym_file := sym_file sym;
     sym_input_section := sym_input_section sym; sym_frag := sym_frag sym;
     sym_value := sym_value sym; st_type := st_type sym; sym_flags := fl;
     plt_idx := plt_idx sym; dynsym_idx := dynsym_idx sym;
     is_placeholder := is_placeholder sym; is_imported := is_imported sym;
     is_relative := is_relative sym; get_addr := get_addr sym;
     get_plt_addr := get_plt_addr sym; get_got_addr := get_got_addr sym;
     get_tlsgd_addr := get_tlsgd_addr sym;
     get_gottpoff_addr := get_gottpoff_addr sym |}.

(** A relocation of a frame description entry; [eh_sym] is the symbol
    the [EhReloc] refers to. *)
Record EhReloc := {
  eh_sym : Symbol;
  eh_type : Z;
  eh_offset : Z;
  eh_addend : Z
}.

Record FdeRecord := {
  fde_contents : list Z;
  fde_rels : list EhReloc
}.

(** An input section.  [isec_contents] is [get_contents()];
    [osec_addr] and [osec_offset] are [sh_addr] and [sh_offset] of the
    output section; [isec_offset] is the offset inside it. *)
Record InputSection := {
  shdr : ElfShdr;
  isec_name : string;
  isec_contents : list Z;
  fdes : list FdeRecord;
  rels : list ElfRela;
  rel_types : list RelType;
  has_fragments : list bool;
  rel_fragments : list SectionFragmentRef;
  reldyn_offset : Z;
  isec_offset : Z;
  osec_addr : Z;
  osec_offset : Z
}.

Definition set_scan_result (isec : InputSection) (off : Z)
    (rts : list RelType) : InputSection :=
  {| shdr := shdr isec; isec_name := isec_name isec;
     isec_contents := isec_contents isec; fdes := fdes isec;
     rels := rels isec; rel_types := rts;
     has_fragments := has_fragments isec;
     rel_fragments := rel_fragments isec; reldyn_offset := off;
     isec_offset := isec_offset isec; osec_addr := osec_addr isec;
     osec_offset := osec_offset isec |}.

Definition set_sh_size (isec : InputSection) (sz : Z) : InputSection :=
  {| shdr := {| sh_type := sh_type (shdr isec); sh_flags := sh_flags (shdr isec);
                sh_addr := sh_addr (shdr isec); sh_offset := sh_offset (shdr isec);
                sh_size := sz |};
     isec_name := isec_name isec;
     isec_contents := isec_contents isec; fdes := fdes isec;
     rels := rels isec; rel_types := rel_types isec;
     has_fragments := has_fragments isec;
     rel_fragments := rel_fragments isec; reldyn_offset := reldyn_offset isec;
     isec_offset := isec_offset isec; osec_addr := osec_addr isec;
     osec_offset := osec_offset isec |}.

(** ** ICF eligibility *)

(** [isalpha], [isdigit] and [isalnum] of the C locale. *)
Definition isalpha (c : ascii) : bool :=
  let n := nat_of_ascii c in
  ((65 <=? n)%nat && (n <=? 90)%nat) || ((97 <=? n)%nat && (n <=? 122)%nat).

Definition isdigit (c : ascii) : bool :=
  let n := nat_of_ascii c in (48 <=? n)%nat && (n <=? 57)%nat.

Definition isalnum (c : ascii) : bool := isalpha c || isdigit c.

Definition underscore : ascii := Ascii.ascii_of_nat 95.

(** The loop [for (i = 1; i < name.size(); i++)] of [is_c_identifier],
    run over the characters after the first. *)
Fixpoint is_c_identifier_tail (s : string) : bool :=
  match s with
  | EmptyString => true
  | String c s' =>
      if negb (isalnum c) && negb (Ascii.eqb c underscore) then false
      else is_c_identifier_tail s'
  end.

Definition is_c_identifier (name : string) : bool :=
  match name with
  | EmptyString => false
  | String c rest =>
      if negb (isalpha c) && negb (Ascii.eqb c underscore) then false
      else is_c_identifier_tail rest
  end.

(** Conversion of an integer to [bool]: non-zero is true. *)
Definition to_bool (v : Z) : bool := negb (v =? 0).

Definition is_eligible (isec : InputSection) : bool :=
  let is_alloc := to_bool (Z.land (sh_flags (shdr isec)) SHF_ALLOC) in
  let is_executable := to_bool (Z.land (sh_flags (shdr isec)) SHF_EXECINSTR) in
  let is_writable := to_bool (Z.land (sh_flags (shdr isec)) SHF_WRITE) in
  let is_bss := sh_type (shdr isec) =? SHT_NOBITS in
  let is_init := (sh_type (shdr isec) =? SHT_INIT_ARRAY)
                 || String.eqb (isec_name isec) ".init" in
  let is_fini := (sh_type (shdr isec) =? SHT_FINI_ARRAY)
                 || String.eqb (isec_name isec) ".fini" in
  let is_enumerable := is_c_identifier (isec_name isec) in
  is_alloc && is_executable && negb is_writable && negb is_bss &&
  negb is_init && negb is_fini && negb is_enumerable.

(** The eligibility rule in the words of the specification.  A flag is
    included when all of its bits are set; a valid C identifier is a
    letter or underscore followed by letters, digits and underscores. *)
Definition has_flag (flags mask : Z) : Prop := Z.land flags mask = mask.

Definition is_letter (c : ascii) : Prop :=
  let n := nat_of_ascii c in
  (65 <= n <= 90)%nat \/ (97 <= n <= 122)%nat.

Definition is_digit (c : ascii) : Prop :=
  let n := nat_of_ascii c in (48 <= n <= 57)%nat.

Definition ident_start (c : ascii) : Prop := is_letter c \/ c = underscore.

Definition ident_char (c : ascii) : Prop :=
  is_letter c \/ is_digit c \/ c = underscore.

Definition valid_c_identifier (name : string) : Prop :=
  exists c rest, name = String c rest /\ ident_start c /\
    Forall ident_char (list_ascii_of_string rest).

Definition eligible_by_spec (isec : InputSection) : Prop :=
  has_flag (sh_flags (shdr isec)) SHF_ALLOC /\
  has_flag (sh_flags (shdr isec)) SHF_EXECINSTR /\
  ~ has_flag (sh_flags (shdr isec)) SHF_WRITE /\
  sh_type (shdr isec) <> SHT_NOBITS /\
  ~ (sh_type (shdr isec) = SHT_INIT_ARRAY \/ isec_name isec = ".init"%string) /\
  ~ (sh_type (shdr isec) = SHT_FINI_ARRAY \/ isec_name isec = ".fini"%string) /\
  ~ valid_c_identifier (isec_name isec).

(** A section of no bytes that is allocated, executable and read-only. *)
Definition empty_text_section : InputSection :=
  {| shdr := {| sh_type := SHT_PROGBITS; sh_flags := 6; sh_addr := 0;
                sh_offset := 64; sh_size := 0 |};
     isec_name := ".text.unused"; isec_contents := []; fdes := [];
     rels := []; rel_types := []; has_fragments := []; rel_fragments := [];
     reldyn_offset := 0; isec_offset := 0; osec_addr := 0; osec_offset := 0 |}.

Definition empty_bss_section : InputSection :=
  {| shdr := {| sh_type := SHT_NOBITS; sh_flags := 6; sh_addr := 0;
                sh_offset := 64; sh_size := 0 |};
     isec_name := ".text.nobits"; isec_contents := []; fdes := [];
     rels := []; rel_types := []; has_fragments := []; rel_fragments := [];
     reldyn_offset := 0; isec_offset := 0; osec_addr := 0; osec_offset := 0 |}.

(** ** Relocation types and diagnostics *)

(** The case labels of the switches over [rel.r_type]. *)
Inductive RelocCase :=
  | X_NONE | X_8 | X_16 | X_32 | X_32S | X_64
  | X_PC8 | X_PC16 | X_PC32 | X_PC64
  | X_GOT32 | X_GOTPC32 | X_GOTPCREL | X_GOTPCRELX | X_REX_GOTPCRELX
  | X_PLT32 | X_TLSGD | X_TLSLD
  | X_TPOFF32 | X_DTPOFF32 | X_TPOFF64 | X_DTPOFF64 | X_GOTTPOFF.

(** Dispatch of a switch over the relocation types: [None] is the
    [default] label (or the fall-through to [unreachable()]). *)
Definition decode_r_type (r : Z) : option RelocCase :=
  match r with
  | 0 => Some X_NONE
  | 1 => Some X_64
  | 2 => Some X_PC32
  | 3 => Some X_GOT32
  | 4 => Some X_PLT32
  | 9 => Some X_GOTPCREL
  | 10 => Some X_32
  | 11 => Some X_32S
  | 12 => Some X_16
  | 13 => Some X_PC16
  | 14 => Some X_8
  | 15 => Some X_PC8
  | 17 => Some X_DTPOFF64
  | 18 => Some X_TPOFF64
  | 19 => Some X_TLSGD
  | 20 => Some X_TLSLD
  | 21 => Some X_DTPOFF32
  | 22 => Some X_GOTTPOFF
  | 23 => Some X_TPOFF32
  | 24 => Some X_PC64
  | 26 => Some X_GOTPC32
  | 41 => Some X_GOTPCRELX
  | 42 => Some X_REX_GOTPCRELX
  | _ => None
  end.

(** The messages passed to [Error()]; reporting one does not stop the
    function that reports it. *)
Inductive Diag :=
  | UndefinedSymbol (name : string)
  | CannotBeUsedWithPie (r : Z) (name : string)
  | TlsgdNotFollowedByPlt32
  | TlsldNotFollowedByPlt32
  | TlsldRefersExternal (name : string)
  | DtpoffRefersExternal (name : string)
  | UnknownRelocation (r : Z)
  | OutOfRange (r : Z) (name : string) (val : Z)
  | InvalidForNonAlloc (r : Z).

Record Config := {
  pie : bool;
  relax : bool
}.

(** ** The relocation classifier *)

Record ScanState := {
  sc_symbols : list Symbol;
  sc_num_dynrel : Z;
  sc_rel_types : list RelType;
  sc_errors : list Diag
}.

Definition report (e : Diag) (st : ScanState) : ScanState :=
  {| sc_symbols := sc_symbols st; sc_num_dynrel := sc_num_dynrel st;
     sc_rel_types := sc_rel_types st; sc_errors := sc_errors st ++ [e] |}.

(** [sym.flags |= mask]. *)
Definition set_flag (mask : Z) (s : Symbol) : Symbol :=
  set_sym_flags s (Z.lor (sym_flags s) mask).

(** The same on the symbol at index [k] of the file's table, which is
    where the reference [sym] of the scan loop points. *)
Definition sym_or (k : nat) (mask : Z) (st : ScanState) : ScanState :=
  {| sc_symbols := alter (set_flag mask) k (sc_symbols st);
     sc_num_dynrel := sc_num_dynrel st;
     sc_rel_types := sc_rel_types st; sc_errors := sc_errors st |}.

(** [rel_types[i] = t]. *)
Definition set_rel_type (i : nat) (t : RelType) (st : ScanState) : ScanState :=
  {| sc_symbols := sc_symbols st; sc_num_dynrel := sc_num_dynrel st;
     sc_rel_types := <[i := t]> (sc_rel_types st);
     sc_errors := sc_errors st |}.

(** [file->num_dynrel++]. *)
Definition inc_dynrel (st : ScanState) : ScanState :=
  {| sc_symbols := sc_symbols st; sc_num_dynrel := sc_num_dynrel st + 1;
     sc_rel_types := sc_rel_types st; sc_errors := sc_errors st |}.

Definition when (b : bool) (f : ScanState -> ScanState) (st : ScanState)
    : ScanState :=
  if b then f st else st.

(** The test [!sym.file || sym.is_placeholder] guarding both the scan
    and the non-alloc applier. *)
Definition sym_undefined (sym : Symbol) : bool :=
  match sym_file sym with None => true | Some _ => false end
  || is_placeholder sym.

(** [i + 1 == rels.size() || rels[i + 1].r_type != R_X86_64_PLT32],
    where [rest] is [rels] from index [i + 1] on. *)
Definition not_followed_by_plt32 (rest : list ElfRela) : bool :=
  match rest with
  | [] => true
  | nx :: _ => negb (r_type nx =? R_X86_64_PLT32)
  end.

(** One iteration of the loop of [scan_relocations], for the relocation
    [rel] at index [i] whose symbol is [sym]; [rest] holds the
    relocations after it.  The boolean returned tells whether the body
    executed its own [i++], skipping the next relocation. *)
Definition scan_rel (cfg : Config) (isec : InputSection) (i : nat)
    (rel : ElfRela) (rest : list ElfRela) (sym : Symbol) (st : ScanState)
    : ScanState * bool :=
  let is_readonly := negb (to_bool (Z.land (sh_flags (shdr isec)) SHF_WRITE)) in
  let is_code := st_type sym =? STT_FUNC in
  let k := r_sym rel in
  let report_error := report (CannotBeUsedWithPie (r_type rel) (sym_name sym)) in
  let plt_or_copyrel := sym_or k (if is_code then NEEDS_PLT else NEEDS_COPYREL) in
  if sym_undefined sym then (report (UndefinedSymbol (sym_name sym)) st, false)
  else
    match decode_r_type (r_type rel) with
    | Some X_NONE => (set_rel_type i R_NONE st, false)
    | Some (X_8 | X_16 | X_32 | X_32S) =>
        let st := when (pie cfg && is_relative sym) report_error st in
        let st := when (is_imported sym) plt_or_copyrel st in
        (set_rel_type i R_ABS st, false)
    | Some X_64 =>
        if pie cfg then
          if is_imported sym then
            let st := when is_readonly report_error st in
            let st := sym_or k NEEDS_DYNSYM st in
            let st := set_rel_type i R_DYN st in
            (inc_dynrel st, false)
          else if is_relative sym then
            let st := when is_readonly report_error st in
            let st := set_rel_type i R_ABS_DYN st in
            (inc_dynrel st, false)
          else (set_rel_type i R_ABS st, false)
        else
          let st := when (is_imported sym) plt_or_copyrel st in
          (set_rel_type i R_ABS st, false)
    | Some (X_PC8 | X_PC16 | X_PC32 | X_PC64) =>
        let st := when (is_imported sym) plt_or_copyrel st in
        (set_rel_type i R_PC st, false)
    | Some X_GOT32 =>
        (set_rel_type i R_GOT (sym_or k NEEDS_GOT st), false)
    | Some X_GOTPC32 =>
        (set_rel_type i R_GOTPC (sym_or k NEEDS_GOT st), false)
    | Some (X_GOTPCREL | X_GOTPCRELX | X_REX_GOTPCRELX) =>
        (set_rel_type i R_GOTPCREL (sym_or k NEEDS_GOT st), false)
    | Some X_PLT32 =>
        let st := when (is_imported sym || (st_type sym =? STT_GNU_IFUNC))
                       (sym_or k NEEDS_PLT) st in
        (set_rel_type i R_PC st, false)
    | Some X_TLSGD =>
        let st := when (not_followed_by_plt32 rest)
                       (report TlsgdNotFollowedByPlt32) st in
        if relax cfg && negb (is_imported sym) then
          (set_rel_type i R_TLSGD_RELAX_LE st, true)
        else
          let st := sym_or k NEEDS_TLSGD st in
          let st := sym_or k NEEDS_DYNSYM st in
          (set_rel_type i R_TLSGD st, false)
    | Some X_TLSLD =>
        let st := when (not_followed_by_plt32 rest)
                       (report TlsldNotFollowedByPlt32) st in
        let st := when (is_imported sym)
                       (report (TlsldRefersExternal (sym_name sym))) st in
        if relax cfg then (set_rel_type i R_TLSLD_RELAX_LE st, true)
        else (set_rel_type i R_TLSLD (sym_or k NEEDS_TLSLD st), false)
    | Some (X_DTPOFF32 | X_DTPOFF64) =>
        let st := when (is_imported sym)
                       (report (DtpoffRefersExternal (sym_name sym))) st in
        (set_rel_type i (if relax cfg then R_TPOFF else R_DTPOFF) st, false)
    | Some (X_TPOFF32 | X_TPOFF64) => (set_rel_type i R_TPOFF st, false)
    | Some X_GOTTPOFF =>
        (set_rel_type i R_GOTTPOFF (sym_or k NEEDS_GOTTPOFF st), false)
    | None => (report (UnknownRelocation (r_type rel)) st, false)
    end.

(** The loop [for (i = 0; i < rels.size(); i++)]: [rest] is [rels] from
    index [i] on.  Reading [file->symbols] outside its bounds is
    undefined behaviour and gives [None]. *)
Fixpoint scan_loop (cfg : Config) (isec : InputSection)
    (rest : list ElfRela) (i : nat) (st : ScanState) : option ScanState :=
  match rest with
  | [] => Some st
  | rel :: rest' =>
      match sc_symbols st !! r_sym rel with
      | None => None
      | Some sym =>
          let '(st', skip) := scan_rel cfg isec i rel rest' sym st in
          if skip then
            match rest' with
            | [] => Some st'
            | _ :: rest'' => scan_loop cfg isec rest'' (S (S i)) st'
            end
          else scan_loop cfg isec rest' (S i) st'
      end
  end.

(** [std::vector::resize(n)] with value-initialised new elements. *)
Definition resize_rel_types (n : nat) (l : list RelType) : list RelType :=
  take n l ++ replicate (n - length l) R_NONE.

(** An object file: the symbols its table points to, its counter of
    dynamic relocations, the offset of its records inside .rela.dyn,
    and its sections (with holes). *)
Record ObjectFile := {
  symbols : list Symbol;
  num_dynrel : Z;
  file_reldyn_offset : Z;
  sections : list (option InputSection)
}.

(** [InputSection::scan_relocations], on the state of the owning file:
    its symbols, its counter and the errors reported so far.  The
    section comes back with [reldyn_offset] and [rel_types] filled. *)
Definition scan_relocations (cfg : Config) (isec : InputSection)
    (syms : list Symbol) (ndyn : Z) (errs : list Diag)
    : option (InputSection * list Symbol * Z * list Diag) :=
  if negb (to_bool (Z.land (sh_flags (shdr isec)) SHF_ALLOC)) then
    Some (isec, syms, ndyn, errs)
  else
    let st := {| sc_symbols := syms; sc_num_dynrel := ndyn;
                 sc_rel_types :=
                   resize_rel_types (length (rels isec)) (rel_types isec);
                 sc_errors := errs |} in
    st' ← scan_loop cfg isec (rels isec) 0 st;
    Some (set_scan_result isec (ndyn * sizeof_ElfRela) (sc_rel_types st'),
          sc_symbols st', sc_num_dynrel st', sc_errors st').

(** The loop of [ObjectFile::scan_relocations] over the sections. *)
Fixpoint scan_sections (cfg : Config) (secs : list (option InputSection))
    (syms : list Symbol) (ndyn : Z) (errs : list Diag)
    : option (list (option InputSection) * list Symbol * Z * list Diag) :=
  match secs with
  | [] => Some ([], syms, ndyn, errs)
  | None :: secs' =>
      '(out, syms', ndyn', errs') ← scan_sections cfg secs' syms ndyn errs;
      Some (None :: out, syms', ndyn', errs')
  | Some isec :: secs' =>
      '(isec', syms1, ndyn1, errs1) ← scan_relocations cfg isec syms ndyn errs;
      '(out, syms', ndyn', errs') ← scan_sections cfg secs' syms1 ndyn1 errs1;
      Some (Some isec' :: out, syms', ndyn', errs')
  end.

Definition scan_file (cfg : Config) (file : ObjectFile) (errs : list Diag)
    : option (ObjectFile * list Diag) :=
  '(secs, syms, ndyn, errs') ←
    scan_sections cfg (sections file) (symbols file) (num_dynrel file) errs;
  Some ({| symbols := syms; num_dynrel := ndyn;
           file_reldyn_offset := file_reldyn_offset file;
           sections := secs |}, errs').

(** The scan of every file, in order. *)
Fixpoint scan_files (cfg : Config) (files : list ObjectFile)
    (errs : list Diag) : option (list ObjectFile * list Diag) :=
  match files with
  | [] => Some ([], errs)
  | f :: files' =>
      '(f', errs1) ← scan_file cfg f errs;
      '(out, errs') ← scan_files cfg files' errs1;
      Some (f' :: out, errs')
  end.

(** ** The relocation applier *)

(** What the applier reads from the globals after layout: the address
    of .got, [out::got->get_tlsld_addr()], the bounds of the TLS
    segment, and the file offset of .rela.dyn ([None] when
    [out::reldyn] is null). *)
Record Layout := {
  got_addr : Z;
  got_tlsld_addr : Z;
  tls_begin : Z;
  tls_end : Z;
  reldyn_sh_offset : option Z
}.

(** A record stored through the [dynrel] pointer, fields in the order
    of the aggregate [{offset, type, sym, addend}]. *)
Record DynRela := {
  d_offset : Z;
  d_type : Z;
  d_sym : Z;
  d_addend : Z
}.

(** The state of an applier run.  [ap_mem] is the output buffer
    [out::buf], addressed by byte offset; [ap_dynrel] is the pointer
    [dynrel] (an offset into the buffer, [None] for null); the records
    stored through it are kept, in order, in [ap_reldyn] with the
    offset each was stored at; [ap_ref_idx] is [ref_idx]. *)
Record ApplyState := {
  ap_mem : gmap Z Z;
  ap_dynrel : option Z;
  ap_reldyn : list (Z * DynRela);
  ap_errors : list Diag;
  ap_ref_idx : nat
}.

Fixpoint store_bytes (loc : Z) (bs : list Z) (m : gmap Z Z) : gmap Z Z :=
  match bs with
  | [] => m
  | b :: bs' => store_bytes (loc + 1) bs' (<[loc := b]> m)
  end.

Fixpoint load_bytes (loc : Z) (n : nat) (m : gmap Z Z) : list (option Z) :=
  match n with
  | O => []
  | S n' => m !! loc :: load_bytes (loc + 1) n' m
  end.

(** [overflow_check]: the diagnostics to report for the 64-bit value
    [val]; [None] is [unreachable()]. *)
Definition overflow_check (name : string) (r : Z) (val : Z)
    : option (list Diag) :=
  let check (in_range : bool) :=
    Some (if in_range then [] else [OutOfRange r name val]) in
  match decode_r_type r with
  | Some X_8 => check (val =? u8 val)
  | Some X_PC8 => check (val =? u64 (i8 val))
  | Some X_16 => check (val =? u16 val)
  | Some X_PC16 => check (val =? u64 (i16 val))
  | Some X_32 => check (val =? u32 val)
  | Some (X_32S | X_PC32 | X_GOT32 | X_GOTPC32 | X_GOTPCREL | X_GOTPCRELX
         | X_REX_GOTPCRELX | X_PLT32 | X_TLSGD | X_TLSLD | X_TPOFF32
         | X_DTPOFF32 | X_GOTTPOFF) => check (val =? u64 (i32 val))
  | Some (X_NONE | X_64 | X_PC64 | X_TPOFF64 | X_DTPOFF64) => Some []
  | None => None
  end.

(** The number of bytes [write_val] stores for a relocation type. *)
Definition write_width (c : RelocCase) : nat :=
  match c with
  | X_NONE => 0
  | X_8 | X_PC8 => 1
  | X_16 | X_PC16 => 2
  | X_32 | X_32S | X_PC32 | X_GOT32 | X_GOTPC32 | X_GOTPCREL | X_GOTPCRELX
  | X_REX_GOTPCRELX | X_PLT32 | X_TLSGD | X_TLSLD | X_TPOFF32 | X_DTPOFF32
  | X_GOTTPOFF => 4
  | X_64 | X_PC64 | X_TPOFF64 | X_DTPOFF64 => 8
  end.

(** [write_val]: the store of the low bytes of [val] at [loc], as wide
    as the relocation type says; [None] is [unreachable()]. *)
Definition write_val (r : Z) (loc : Z) (val : Z) (m : gmap Z Z)
    : option (gmap Z Z) :=
  match decode_r_type r with
  | Some c => Some (store_bytes loc (le_bytes (write_width c) val) m)
  | None => None
  end.

Definition ap_report (es : list Diag) (st : ApplyState) : ApplyState :=
  {| ap_mem := ap_mem st; ap_dynrel := ap_dynrel st;
     ap_reldyn := ap_reldyn st; ap_errors := ap_errors st ++ es;
     ap_ref_idx := ap_ref_idx st |}.

Definition ap_set_mem (m : gmap Z Z) (st : ApplyState) : ApplyState :=
  {| ap_mem := m; ap_dynrel := ap_dynrel st;
     ap_reldyn := ap_reldyn st; ap_errors := ap_errors st;
     ap_ref_idx := ap_ref_idx st |}.

Definition ap_set_ref_idx (k : nat) (st : ApplyState) : ApplyState :=
  {| ap_mem := ap_mem st; ap_dynrel := ap_dynrel st;
     ap_reldyn := ap_reldyn st; ap_errors := ap_errors st;
     ap_ref_idx := k |}.

(** The lambda [write] of [apply_reloc_alloc]: the range check, then
    the store.  The parameter is a [u64]. *)
Definition write (sym : Symbol) (rel : ElfRela) (loc : Z) (v : Z)
    (st : ApplyState) : option ApplyState :=
  let val := u64 v in
  es ← overflow_check (sym_name sym) (r_type rel) val;
  m ← write_val (r_type rel) loc val (ap_mem st);
  Some (ap_set_mem m (ap_report es st)).

(** [*dynrel++ = rec]; storing through the null pointer is undefined. *)
Definition emit_dynrel (rec : DynRela) (st : ApplyState) : option ApplyState :=
  p ← ap_dynrel st;
  Some {| ap_mem := ap_mem st; ap_dynrel := Some (p + sizeof_ElfRela);
          ap_reldyn := ap_reldyn st ++ [(p, rec)];
          ap_errors := ap_errors st; ap_ref_idx := ap_ref_idx st |}.

(** The instructions the TLS relaxations store. *)
Definition insn_gd_to_le : list Z :=
  [0x64; 0x48; 0x8b; 0x04; 0x25; 0; 0; 0; 0;
   0x48; 0x8d; 0x80; 0; 0; 0; 0].

Definition insn_ld_to_le : list Z :=
  [0x66; 0x66; 0x66; 0x64; 0x48; 0x8b; 0x04; 0x25; 0; 0; 0; 0].

(** [const SectionFragmentRef *ref = nullptr;
     if (has_fragments[i]) ref = &rel_fragments[ref_idx++];] *)
Definition take_fragment_ref (isec : InputSection) (i : nat)
    (st : ApplyState) : option (option SectionFragmentRef * ApplyState) :=
  hf ← has_fragments isec !! i;
  if hf : bool then
    r ← rel_fragments isec !! ap_ref_idx st;
    Some (Some r, ap_set_ref_idx (S (ap_ref_idx st)) st)
  else Some (None, st).

(** The body of the switch over [rel_types[i]] in [apply_reloc_alloc],
    for the relocation [rel] stored at buffer offset [loc].  The
    boolean tells whether the case executed [i++]. *)
Definition apply_rel (lay : Layout) (isec : InputSection) (loc : Z)
    (rel : ElfRela) (sym : Symbol) (ref : option SectionFragmentRef)
    (rt : RelType) (st : ApplyState) : option (ApplyState * bool) :=
  let vS := match ref with
            | Some r => frag_addr (ref_frag r)
            | None => if plt_idx sym =? -1 then get_addr sym
                      else get_plt_addr sym
            end in
  let vA := match ref with
            | Some r => ref_addend r
            | None => r_addend rel
            end in
  let vP := osec_addr isec + isec_offset isec + r_offset rel in
  let vG := get_got_addr sym - got_addr lay in
  let vGOT := got_addr lay in
  let wr v := st' ← write sym rel loc v st; Some (st', false) in
  match rt with
  | R_NONE => Some (st, false)
  | R_ABS => wr (vS + vA)
  | R_ABS_DYN =>
      st1 ← write sym rel loc (vS + vA) st;
      st2 ← emit_dynrel {| d_offset := u64 vP; d_type := R_X86_64_RELATIVE;
                           d_sym := 0; d_addend := i64 (vS + vA) |} st1;
      Some (st2, false)
  | R_DYN =>
      st1 ← emit_dynrel {| d_offset := u64 vP; d_type := R_X86_64_64;
                           d_sym := dynsym_idx sym; d_addend := vA |} st;
      Some (st1, false)
  | R_PC => wr (vS + vA - vP)
  | R_GOT => wr (vG + vA)
  | R_GOTPC => wr (vGOT + vA - vP)
  | R_GOTPCREL => wr (vG + vGOT + vA - vP)
  | R_TLSGD => wr (get_tlsgd_addr sym + vA - vP)
  | R_TLSGD_RELAX_LE =>
      let m := store_bytes (loc - 4) insn_gd_to_le (ap_mem st) in
      let m := store_bytes (loc + 8)
                 (le_bytes 4 (u32 (vS - tls_end lay + vA + 4))) m in
      Some (ap_set_mem m st, true)
  | R_TLSLD => wr (got_tlsld_addr lay + vA - vP)
  | R_TLSLD_RELAX_LE =>
      Some (ap_set_mem (store_bytes (loc - 3) insn_ld_to_le (ap_mem st)) st,
            true)
  | R_DTPOFF => wr (vS + vA - tls_begin lay)
  | R_TPOFF => wr (vS + vA - tls_end lay)
  | R_GOTTPOFF => wr (get_gottpoff_addr sym + vA - vP)
  end.

(** One iteration of the loop of [apply_reloc_alloc].  Indexing
    [file->symbols], [has_fragments], [rel_fragments] or [rel_types]
    outside their bounds is undefined and gives [None]. *)
Definition apply_alloc_step (lay : Layout) (syms : list Symbol)
    (isec : InputSection) (base : Z) (i : nat) (rel : ElfRela)
    (st : ApplyState) : option (ApplyState * bool) :=
  sym ← syms !! r_sym rel;
  '(ref, st1) ← take_fragment_ref isec i st;
  rt ← rel_types isec !! i;
  apply_rel lay isec (base + r_offset rel) rel sym ref rt st1.

Fixpoint apply_alloc_loop (lay : Layout) (syms : list Symbol)
    (isec : InputSection) (base : Z) (rest : list ElfRela) (i : nat)
    (st : ApplyState) : option ApplyState :=
  match rest with
  | [] => Some st
  | rel :: rest' =>
      match apply_alloc_step lay syms isec base i rel st with
      | None => None
      | Some (st', skip) =>
          if skip : bool then
            match rest' with
            | [] => Some st'
            | _ :: rest'' =>
                apply_alloc_loop lay syms isec base rest'' (S (S i)) st'
            end
          else apply_alloc_loop lay syms isec base rest' (S i) st'
      end
  end.

(** [InputSection::apply_reloc_alloc(base)], run on the buffer [m];
    [base] is the offset of the section's bytes in the buffer. *)
Definition apply_reloc_alloc (lay : Layout) (file : ObjectFile)
    (isec : InputSection) (base : Z) (m : gmap Z Z) (errs : list Diag)
    : option ApplyState :=
  let dynrel :=
    match reldyn_sh_offset lay with
    | Some off => Some (off + file_reldyn_offset file + reldyn_offset isec)
    | None => None
    end in
  apply_alloc_loop lay (symbols file) isec base (rels isec) 0
    {| ap_mem := m; ap_dynrel := dynrel; ap_reldyn := [];
       ap_errors := errs; ap_ref_idx := 0 |}.

(** One iteration of the loop of [apply_reloc_nonalloc]. *)
Definition apply_nonalloc_step (lay : Layout) (syms : list Symbol)
    (isec : InputSection) (base : Z) (i : nat) (rel : ElfRela)
    (st : ApplyState) : option ApplyState :=
  sym ← syms !! r_sym rel;
  if sym_undefined sym then
    Some (ap_report [UndefinedSymbol (sym_name sym)] st)
  else
    '(ref, st1) ← take_fragment_ref isec i st;
    let loc := base + r_offset rel in
    match decode_r_type (r_type rel) with
    | Some X_NONE => Some st1
    | Some (X_8 | X_16 | X_32 | X_32S | X_64) =>
        let val := match ref with
                   | Some r => frag_addr (ref_frag r)
                   | None => get_addr sym
                   end in
        es ← overflow_check (sym_name sym) (r_type rel) (u64 val);
        m ← write_val (r_type rel) loc (u64 val) (ap_mem st1);
        Some (ap_set_mem m (ap_report es st1))
    | Some X_DTPOFF64 =>
        m ← write_val (r_type rel) loc
              (u64 (get_addr sym + r_addend rel - tls_begin lay)) (ap_mem st1);
        Some (ap_set_mem m st1)
    | Some (X_PC8 | X_PC16 | X_PC32 | X_PC64 | X_GOT32 | X_GOTPC32
           | X_GOTPCREL | X_GOTPCRELX | X_REX_GOTPCRELX | X_PLT32 | X_TLSGD
           | X_TLSLD | X_DTPOFF32 | X_TPOFF32 | X_TPOFF64 | X_GOTTPOFF) =>
        Some (ap_report [InvalidForNonAlloc (r_type rel)] st1)
    | None => Some (ap_report [UnknownRelocation (r_type rel)] st1)
    end.

Fixpoint apply_nonalloc_loop (lay : Layout) (syms : list Symbol)
    (isec : InputSection) (base : Z) (rest : list ElfRela) (i : nat)
    (st : ApplyState) : option ApplyState :=
  match rest with
  | [] => Some st
  | rel :: rest' =>
      st' ← apply_nonalloc_step lay syms isec base i rel st;
      apply_nonalloc_loop lay syms isec base rest' (S i) st'
  end.

Definition apply_reloc_nonalloc (lay : Layout) (file : ObjectFile)
    (isec : InputSection) (base : Z) (m : gmap Z Z) (errs : list Diag)
    : option ApplyState :=
  apply_nonalloc_loop lay (symbols file) isec base (rels isec) 0
    {| ap_mem := m; ap_dynrel := None; ap_reldyn := [];
       ap_errors := errs; ap_ref_idx := 0 |}.

(** [InputSection::copy_buf], run on the buffer [m]: nothing for a
    section of type SHT_NOBITS or of size 0; else the contents are
    copied to the section's place in the buffer,
    [output_section->shdr.sh_offset + offset], and the relocations are
    applied over them.  It is the only caller of [apply_reloc_alloc]
    and of [apply_reloc_nonalloc]. *)
Definition copy_buf (lay : Layout) (file : ObjectFile) (isec : InputSection)
    (m : gmap Z Z) (errs : list Diag) : option ApplyState :=
  if (sh_type (shdr isec) =? SHT_NOBITS) || (sh_size (shdr isec) =? 0) then
    Some {| ap_mem := m; ap_dynrel := None; ap_reldyn := [];
            ap_errors := errs; ap_ref_idx := 0 |}
  else
    let base := osec_offset isec + isec_offset isec in
    let m := store_bytes base (isec_contents isec) m in
    if to_bool (Z.land (sh_flags (shdr isec)) SHF_ALLOC)
    then apply_reloc_alloc lay file isec base m errs
    else apply_reloc_nonalloc lay file isec base m errs.

(** [copy_buf] on every section of a file, threading the buffer and
    the errors and collecting, in order, the records stored into
    .rela.dyn. *)
Fixpoint copy_buf_sections (lay : Layout) (file : ObjectFile)
    (secs : list (option InputSection)) (m : gmap Z Z) (errs : list Diag)
    : option (gmap Z Z * list (Z * DynRela) * list Diag) :=
  match secs with
  | [] => Some (m, [], errs)
  | None :: secs' => copy_buf_sections lay file secs' m errs
  | Some isec :: secs' =>
      st ← copy_buf lay file isec m errs;
      '(m', recs, errs') ←
        copy_buf_sections lay file secs' (ap_mem st) (ap_errors st);
      Some (m', ap_reldyn st ++ recs, errs')
  end.

(** The same over all files. *)
Fixpoint copy_buf_files (lay : Layout) (files : list ObjectFile)
    (m : gmap Z Z) (errs : list Diag)
    : option (gmap Z Z * list (Z * DynRela) * list Diag) :=
  match files with
  | [] => Some (m, [], errs)
  | f :: files' =>
      '(m1, recs1, errs1) ← copy_buf_sections lay f (sections f) m errs;
      '(m', recs, errs') ← copy_buf_files lay files' m1 errs1;
      Some (m', recs1 ++ recs, errs')
  end.

(** ** The applier's quantities in the words of the specification *)





(** The kinds whose value goes through the lambda [write]. *)
Definition uses_write (rt : RelType) : bool :=
  match rt with
  | R_NONE | R_DYN | R_TLSGD_RELAX_LE | R_TLSLD_RELAX_LE => false
  | _ => true
  end.

(** The psABI bound of a relocation type on a 64-bit value [val]:
    unsigned for 8, 16 and 32, signed (on the two's-complement reading
    of [val]) for the PC-relative and the signed 32-bit types, none for
    the 64-bit types and NONE. *)
Definition psabi_in_range (c : RelocCase) (val : Z) : Prop :=
  match c with
  | X_8 => 0 <= val <= 255
  | X_PC8 => -128 <= i64 val <= 127
  | X_16 => 0 <= val <= 65535
  | X_PC16 => -32768 <= i64 val <= 32767
  | X_32 => 0 <= val <= 4294967295
  | X_32S | X_PC32 | X_GOT32 | X_GOTPC32 | X_GOTPCREL | X_GOTPCRELX
  | X_REX_GOTPCRELX | X_PLT32 | X_TLSGD | X_TLSLD | X_TPOFF32 | X_DTPOFF32
  | X_GOTTPOFF => -2147483648 <= i64 val <= 2147483647
  | X_NONE | X_64 | X_PC64 | X_TPOFF64 | X_DTPOFF64 => True
  end.


(** *** The effect of the scan on a symbol, in the words of the
    specification *)

(** Two symbols that differ at most in their demand flags. *)
Definition same_but_flags (s s' : Symbol) : Prop :=
  sym_name s' = sym_name s /\ sym_file s' = sym_file s /\
  sym_input_section s' = sym_input_section s /\ sym_frag s' = sym_frag s /\
  sym_value s' = sym_value s /\ st_type s' = st_type s /\
  plt_idx s' = plt_idx s /\ dynsym_idx s' = dynsym_idx s /\
  is_placeholder s' = is_placeholder s /\ is_imported s' = is_imported s /\
  is_relative s' = is_relative s /\ get_addr s' = get_addr s /\
  get_plt_addr s' = get_plt_addr s /\ get_got_addr s' = get_got_addr s /\
  get_tlsgd_addr s' = get_tlsgd_addr s /\
  get_gottpoff_addr s' = get_gottpoff_addr s.

(** The table [syms'] is the table [syms] with the demand flag [mask]
    set on the symbol [sym] at index [k]: the flag is set, every bit
    outside the flag is as it was, nothing else of the symbol and no
    other symbol has changed. *)
Definition flag_set (k : nat) (sym : Symbol) (mask : Z)
    (syms syms' : list Symbol) : Prop :=
  length syms' = length syms /\
  (forall j, j <> k -> syms' !! j = syms !! j) /\
  exists sym',
    syms' !! k = Some sym' /\
    has_flag (sym_flags sym') mask /\
    (forall n, 0 <= n -> Z.testbit mask n = false ->
       Z.testbit (sym_flags sym') n = Z.testbit (sym_flags sym) n) /\
    same_but_flags sym sym'.


(** ** Counting dynamic relocations *)

(** The two kinds for which the applier stores a record in .rela.dyn. *)
Definition is_dyn_kind (t : RelType) : bool :=
  match t with
  | R_DYN | R_ABS_DYN => true
  | _ => false
  end.

(** The two kinds after which the scan and the applier skip a
    relocation. *)
Definition is_relax_kind (t : RelType) : bool :=
  match t with
  | R_TLSGD_RELAX_LE | R_TLSLD_RELAX_LE => true
  | _ => false
  end.

(** The number of relocations classified R_DYN or R_ABS_DYN. *)
Fixpoint count_dyn (rts : list RelType) : nat :=
  match rts with
  | [] => 0
  | t :: rts' => (if is_dyn_kind t then 1 else 0) + count_dyn rts'
  end.

Definition is_alloc (isec : InputSection) : bool :=
  to_bool (Z.land (sh_flags (shdr isec)) SHF_ALLOC).

(** The same over the SHF_ALLOC sections of a file. *)
Fixpoint file_dyn_count (secs : list (option InputSection)) : nat :=
  match secs with
  | [] => 0
  | None :: secs' => file_dyn_count secs'
  | Some isec :: secs' =>
      (if is_alloc isec then count_dyn (rel_types isec) else 0)
      + file_dyn_count secs'
  end.

Fixpoint sum_num_dynrel (files : list ObjectFile) : Z :=
  match files with
  | [] => 0
  | f :: files' => num_dynrel f + sum_num_dynrel files'
  end.

(** The offsets of [n] consecutive records of .rela.dyn from [p] on. *)
Definition slot_offsets (p : Z) (n : nat) : list Z :=
  (fun k : nat => p + sizeof_ElfRela * Z.of_nat k) <$> seq 0 n.

Fixpoint count_true (bs : list bool) : nat :=
  match bs with
  | [] => 0
  | b :: bs' => (if b then 1 else 0) + count_true bs'
  end.

(** A section as the parser hands it over: every relocation names a
    symbol of the file's table, [has_fragments] has one entry per
    relocation, [rel_fragments] has one entry per fragment reference,
    and nothing has been classified yet. *)
Definition parsed_section (nsyms : nat) (isec : InputSection) : Prop :=
  Forall (fun rel => (r_sym rel < nsyms)%nat) (rels isec) /\
  length (has_fragments isec) = length (rels isec) /\
  (count_true (has_fragments isec) <= length (rel_fragments isec))%nat /\
  rel_types isec = [].

Definition parsed_sections (nsyms : nat) (secs : list (option InputSection))
    : Prop :=
  Forall (fun o => match o with
                   | Some isec => parsed_section nsyms isec
                   | None => True
                   end) secs.

Definition parsed_file (f : ObjectFile) : Prop :=
  num_dynrel f = 0 /\ parsed_sections (length (symbols f)) (sections f).

(** [classified rs ts]: the kinds [ts] are an outcome of the scan loop
    over the relocations [rs].  A relaxed kind is followed by a slot
    the loop stepped over, which keeps the R_NONE it was created with;
    a kind patched through [write] belongs to a relocation type the
    switches know. *)
Inductive classified : list ElfRela -> list RelType -> Prop :=
  | classified_nil : classified [] []
  | classified_relax_last rel t :
      is_relax_kind t = true -> classified [rel] [t]
  | classified_relax rel nx rest t rts :
      is_relax_kind t = true ->
      classified rest rts ->
      classified (rel :: nx :: rest) (t :: R_NONE :: rts)
  | classified_plain rel rest t rts :
      is_relax_kind t = false ->
      (uses_write t = true -> is_Some (decode_r_type (r_type rel))) ->
      classified rest rts ->
      classified (rel :: rest) (t :: rts).

(** The offsets in the buffer of the [num_dynrel] records of .rela.dyn
    that belong to a file, [off] being the offset of .rela.dyn. *)
Definition file_slots (off : Z) (f : ObjectFile) : list Z :=
  slot_offsets (off + file_reldyn_offset f) (Z.to_nat (num_dynrel f)).

Fixpoint all_slots (off : Z) (files : list ObjectFile) : list Z :=
  match files with
  | [] => []
  | f :: files' => file_slots off f ++ all_slots off files'
  end.

(** A section for which [copy_buf] does nothing: its type is
    SHT_NOBITS or its size is 0. *)
Definition has_no_bytes (isec : InputSection) : bool :=
  (sh_type (shdr isec) =? SHT_NOBITS) || (sh_size (shdr isec) =? 0).

(** The slots of .rela.dyn that get a record, for the sections [secs]
    of a file whose slots start at [p]: every SHF_ALLOC section owns
    as many slots as it has relocations classified R_DYN or R_ABS_DYN,
    and the slots of a section without bytes stay empty. *)
Fixpoint written_slots (p : Z) (secs : list (option InputSection)) : list Z :=
  match secs with
  | [] => []
  | None :: secs' => written_slots p secs'
  | Some isec :: secs' =>
      if is_alloc isec then
        (if has_no_bytes isec then []
         else slot_offsets p (count_dyn (rel_types isec)))
        ++ written_slots
             (p + sizeof_ElfRela * Z.of_nat (count_dyn (rel_types isec)))
             secs'
      else written_slots p secs'
  end.

Fixpoint all_written_slots (off : Z) (files : list ObjectFile) : list Z :=
  match files with
  | [] => []
  | f :: files' =>
      written_slots (off + file_reldyn_offset f) (sections f)
      ++ all_written_slots off files'
  end.

(** Every SHF_ALLOC section that has relocations has bytes. *)
Definition relocs_have_bytes (secs : list (option InputSection)) : Prop :=
  Forall (fun o => match o with
                   | Some isec =>
                       is_alloc isec = true -> has_no_bytes isec = true ->
                       rels isec = []
                   | None => True
                   end) secs.

(** ** Sample inputs for the relocation engine *)

Definition cfg_pie_relax : Config := {| pie := true; relax := true |}.

Definition mk_symbol (name : string) (file : option nat) (imported rel : bool)
    (addr : Z) : Symbol :=
  {| sym_name := name; sym_file := file; sym_input_section := None;
     sym_frag := None; sym_value := 0; st_type := STT_FUNC; sym_flags := 0;
     plt_idx := -1; dynsym_idx := 5; is_placeholder := false;
     is_imported := imported; is_relative := rel; get_addr := addr;
     get_plt_addr := 0; get_got_addr := 0; get_tlsgd_addr := 0;
     get_gottpoff_addr := 0 |}.

(** A defined local symbol, an imported one, and an undefined one. *)
Definition sym_local : Symbol := mk_symbol "counter" (Some 0%nat) false true 4096.
Definition sym_extern : Symbol := mk_symbol "environ" (Some 1%nat) true false 8192.

Definition mk_rela (off r : Z) (k : nat) (a : Z) : ElfRela :=
  {| r_offset := off; r_type := r; r_sym := k; r_addend := a |}.

Definition mk_section (flags : Z) (name : string) (rs : list ElfRela)
    (rts : list RelType) (hf : list bool) (frs : list SectionFragmentRef)
    : InputSection :=
  {| shdr := {| sh_type := SHT_PROGBITS; sh_flags := flags; sh_addr := 0;
                sh_offset := 64; sh_size := 32 |};
     isec_name := name; isec_contents := replicate 32 0; fdes := [];
     rels := rs; rel_types := rts; has_fragments := hf;
     rel_fragments := frs; reldyn_offset := 0; isec_offset := 16;
     osec_addr := 65536; osec_offset := 512 |}.

(** A writable data section with one 64-bit absolute relocation. *)
Definition data_section : InputSection :=
  mk_section 3 ".data" [mk_rela 8 R_X86_64_64 0 4] [] [false] [].

Definition scan_start (syms : list Symbol) (n : nat) : ScanState :=
  {| sc_symbols := syms; sc_num_dynrel := 0;
     sc_rel_types := replicate n R_NONE; sc_errors := [] |}.

Definition sample_layout : Layout :=
  {| got_addr := 131072; got_tlsld_addr := 131200; tls_begin := 262144;
     tls_end := 262400; reldyn_sh_offset := Some 1024 |}.


(** A text section with a general-dynamic TLS access: the TLSGD
    relocation and the PLT32 call that follows it. *)
Definition tls_rels : list ElfRela :=
  [mk_rela 4 R_X86_64_TLSGD 0 (-4); mk_rela 12 R_X86_64_PLT32 1 (-4)].






(** Two files for a position-independent link.  The first has a text
    section with a relaxable TLS access, a hole, and a data section
    with two 64-bit relocations; the second has a data section with a
    64-bit relocation against an imported symbol. *)
Definition data_section2 : InputSection :=
  mk_section 3 ".data.rel"
    [mk_rela 0 R_X86_64_64 0 0; mk_rela 8 R_X86_64_PC32 0 (-4);
     mk_rela 16 R_X86_64_64 1 8] [] [false; false; false] [].

Definition tls_section_fresh : InputSection :=
  mk_section 6 ".text.tls" tls_rels [] [false; false] [].

Definition file_a : ObjectFile :=
  {| symbols := [sym_local; sym_extern]; num_dynrel := 0;
     file_reldyn_offset := 0;
     sections := [Some tls_section_fresh; None; Some data_section2] |}.

Definition file_b : ObjectFile :=
  {| symbols := [sym_extern]; num_dynrel := 0; file_reldyn_offset := 48;
     sections := [Some data_section] |}.

(** A file whose only section is a writable SHT_NOBITS section that
    carries a 64-bit relocation against a local symbol. *)
Definition bss_section : InputSection :=
  {| shdr := {| sh_type := SHT_NOBITS; sh_flags := 3; sh_addr := 0;
                sh_offset := 96; sh_size := 8 |};
     isec_name := ".bss"; isec_contents := []; fdes := [];
     rels := [mk_rela 0 R_X86_64_64 0 0]; rel_types := [];
     has_fragments := [false]; rel_fragments := [];
     reldyn_offset := 0; isec_offset := 0; osec_addr := 131072;
     osec_offset := 1024 |}.

Definition file_bss : ObjectFile :=
  {| symbols := [sym_local]; num_dynrel := 0; file_reldyn_offset := 0;
     sections := [Some bss_section] |}.

(** ** ICF: the initial digest *)

Definition HASH_SIZE : nat := 16.

(** The hash context is kept as the sequence of bytes passed to
    [SHA256_Update] so far. *)

(** [hash_i64]: the eight bytes of the value. *)
Definition hash_i64 (val : Z) (ctx : list Z) : list Z :=
  ctx ++ le_bytes 8 val.

(** [hash_string]: the size, then the bytes. *)
Definition hash_string (str : list Z) (ctx : list Z) : list Z :=
  hash_i64 (Z.of_nat (length str)) ctx ++ str.

Definition hash_symbol (sym : Symbol) (ctx : list Z) : list Z :=
  let ctx :=
    match sym_frag sym with
    | Some frag => hash_string (frag_data frag) (hash_i64 2 ctx)
    | None =>
        match sym_input_section sym with
        | None => hash_i64 3 ctx
        | Some _ => hash_i64 4 ctx
        end
    end in
  hash_i64 (sym_value sym) ctx.

(** [std::string_view::substr(pos, n)] and [substr(pos)]: a position
    beyond the end throws [std::out_of_range]. *)
Definition substr (pos n : nat) (s : list Z) : option (list Z) :=
  if (pos <=? length s)%nat then Some (take n (drop pos s)) else None.

Definition substr_from (pos : nat) (s : list Z) : option (list Z) :=
  if (pos <=? length s)%nat then Some (drop pos s) else None.

(** [std::span::subspan(1)]: undefined on an empty span. *)
Definition subspan_1 {A} (l : list A) : option (list A) :=
  match l with
  | [] => None
  | _ :: l' => Some l'
  end.

(** The body of the inner loop over the relocations of an FDE. *)
Definition hash_eh_reloc (rel : EhReloc) (ctx : list Z) : list Z :=
  let ctx := hash_symbol (eh_sym rel) ctx in
  let ctx := hash_i64 (eh_type rel) ctx in
  let ctx := hash_i64 (eh_offset rel) ctx in
  hash_i64 (eh_addend rel) ctx.

Fixpoint hash_eh_relocs (rs : list EhReloc) (ctx : list Z) : list Z :=
  match rs with
  | [] => ctx
  | rel :: rs' => hash_eh_relocs rs' (hash_eh_reloc rel ctx)
  end.

(** The body of the loop over [isec.fdes]. *)
Definition hash_fde (fde : FdeRecord) (ctx : list Z) : option (list Z) :=
  s1 ← substr 0 4 (fde_contents fde);
  let ctx := hash_string s1 ctx in
  s2 ← substr_from 8 (fde_contents fde);
  let ctx := hash_string s2 ctx in
  let ctx := hash_i64 (Z.of_nat (length (fde_rels fde))) ctx in
  rs ← subspan_1 (fde_rels fde);
  Some (hash_eh_relocs rs ctx).

Fixpoint hash_fdes (fs : list FdeRecord) (ctx : list Z) : option (list Z) :=
  match fs with
  | [] => Some ctx
  | fde :: fs' => ctx' ← hash_fde fde ctx; hash_fdes fs' ctx'
  end.

(** The loop over [isec.rels]: [rest] is [rels] from index [i] on and
    [ref_idx] the running index into [rel_fragments].  Indexing a
    vector outside its bounds is undefined and gives [None]. *)
Fixpoint hash_rels (syms : list Symbol) (isec : InputSection)
    (rest : list ElfRela) (i ref_idx : nat) (ctx : list Z)
    : option (list Z) :=
  match rest with
  | [] => Some ctx
  | rel :: rest' =>
      let ctx := hash_i64 (r_offset rel) ctx in
      let ctx := hash_i64 (r_type rel) ctx in
      let ctx := hash_i64 (r_addend rel) ctx in
      hf ← has_fragments isec !! i;
      if hf : bool then
        ref ← rel_fragments isec !! ref_idx;
        let ctx := hash_i64 1 ctx in
        let ctx := hash_i64 (ref_addend ref) ctx in
        let ctx := hash_string (frag_data (ref_frag ref)) ctx in
        hash_rels syms isec rest' (S i) (S ref_idx) ctx
      else
        sym ← syms !! r_sym rel;
        hash_rels syms isec rest' (S i) ref_idx (hash_symbol sym ctx)
  end.

(** The bytes [compute_digest] has passed to the hash when it reaches
    [digest_final]; [syms] is the symbol table of the section's file. *)
Definition compute_digest_input (syms : list Symbol) (isec : InputSection)
    : option (list Z) :=
  let ctx := hash_string (isec_contents isec) [] in
  let ctx := hash_i64 (sh_flags (shdr isec)) ctx in
  let ctx := hash_i64 (Z.of_nat (length (fdes isec))) ctx in
  let ctx := hash_i64 (Z.of_nat (length (rels isec))) ctx in
  ctx ← hash_fdes (fdes isec) ctx;
  hash_rels syms isec (rels isec) 0 0 ctx.

(** [digest_final]: the first [HASH_SIZE] bytes of the SHA-256 value. *)
Definition digest_final (sha256 : list Z -> list Z) (ctx : list Z) : list Z :=
  take HASH_SIZE (sha256 ctx).

Definition compute_digest (sha256 : list Z -> list Z) (syms : list Symbol)
    (isec : InputSection) : option (list Z) :=
  digest_final sha256 <$> compute_digest_input syms isec.

(** *** The layout of the digest input in the words of the specification *)

(** A 64-bit integer as it lies in memory: eight bytes, the least
    significant first; byte [k] is [(v / 256 ^ k) mod 256], which for
    a negative [v] is the byte of its two's-complement form. *)
Definition byte_at (v : Z) (k : Z) : Z := (v / 256 ^ k) mod 256.

Definition i64_field (v : Z) : list Z :=
  [byte_at v 0; byte_at v 1; byte_at v 2; byte_at v 3;
   byte_at v 4; byte_at v 5; byte_at v 6; byte_at v 7].

Definition length_prefixed (s : list Z) : list Z :=
  i64_field (Z.of_nat (length s)) ++ s.

(** Tag 2 and the fragment bytes if the symbol refers to a fragment,
    tag 3 if it has no input section, tag 4 otherwise; then the value. *)
Definition symbol_digest (sym : Symbol) : list Z :=
  match sym_frag sym with
  | Some frag => i64_field 2 ++ length_prefixed (frag_data frag)
  | None =>
      match sym_input_section sym with
      | None => i64_field 3
      | Some _ => i64_field 4
      end
  end ++ i64_field (sym_value sym).

Definition eh_reloc_layout (rel : EhReloc) : list Z :=
  symbol_digest (eh_sym rel) ++ i64_field (eh_type rel)
  ++ i64_field (eh_offset rel) ++ i64_field (eh_addend rel).

(** An FDE: bytes [0,4) and [8,end) of the contents, each
    length-prefixed; the relocation count; every relocation but the
    first.  The layout exists for an FDE of at least 8 bytes with at
    least one relocation. *)
Definition fde_layout (fde : FdeRecord) : option (list Z) :=
  if (8 <=? length (fde_contents fde))%nat then
    match fde_rels fde with
    | [] => None
    | _ :: others =>
        Some (length_prefixed (take 4 (fde_contents fde))
              ++ length_prefixed (drop 8 (fde_contents fde))
              ++ i64_field (Z.of_nat (length (fde_rels fde)))
              ++ concat (eh_reloc_layout <$> others))
    end
  else None.

(** The relocation at index [i]: it targets a fragment when
    [has_fragments[i]] is set, and its fragment reference is then the
    entry of [rel_fragments] numbered by the set bits before [i]. *)
Definition rel_layout (syms : list Symbol) (isec : InputSection)
    (i : nat) (rel : ElfRela) : option (list Z) :=
  hf ← has_fragments isec !! i;
  target ←
    (if hf : bool then
       ref ← rel_fragments isec !! count_true (take i (has_fragments isec));
       Some (i64_field 1 ++ i64_field (ref_addend ref)
             ++ length_prefixed (frag_data (ref_frag ref)))
     else
       sym ← syms !! r_sym rel;
       Some (symbol_digest sym));
  Some (i64_field (r_offset rel) ++ i64_field (r_type rel)
        ++ i64_field (r_addend rel) ++ target).

(** The concatenation of the layouts of a sequence of items. *)
Fixpoint concat_layouts {A} (f : A -> option (list Z)) (l : list A)
    : option (list Z) :=
  match l with
  | [] => Some []
  | x :: l' => a ← f x; b ← concat_layouts f l'; Some (a ++ b)
  end.

Definition digest_layout (syms : list Symbol) (isec : InputSection)
    : option (list Z) :=
  fs ← concat_layouts fde_layout (fdes isec);
  rs ← concat_layouts (fun '(i, rel) => rel_layout syms isec i rel)
         (imap pair (rels isec));
  Some (length_prefixed (isec_contents isec)
        ++ i64_field (sh_flags (shdr isec))
        ++ i64_field (Z.of_nat (length (fdes isec)))
        ++ i64_field (Z.of_nat (length (rels isec)))
        ++ fs ++ rs).

(** The data [compute_digest] relies on: every FDE has its 8-byte
    header and its first relocation, [has_fragments] has one entry per
    relocation, [rel_fragments] one per fragment reference, and the
    relocations name symbols of the table. *)
Definition digest_ready (syms : list Symbol) (isec : InputSection) : Prop :=
  Forall (fun fde => (8 <= length (fde_contents fde))%nat /\ fde_rels fde <> [])
    (fdes isec) /\
  Forall (fun rel => (r_sym rel < length syms)%nat) (rels isec) /\
  length (has_fragments isec) = length (rels isec) /\
  (count_true (has_fragments isec) <= length (rel_fragments isec))%nat.

(** A function with one FDE, a call of a fragment-resident string and
    a call of another function. *)
Definition str_fragment : SectionFragment :=
  {| frag_data := [104; 105; 0]; frag_addr := 12288 |}.

Definition sym_callee : Symbol :=
  {| sym_name := "callee"; sym_file := Some 0%nat;
     sym_input_section := Some 7%nat; sym_frag := None; sym_value := 16;
     st_type := STT_FUNC; sym_flags := 0; plt_idx := -1; dynsym_idx := 0;
     is_placeholder := false; is_imported := false; is_relative := true;
     get_addr := 0; get_plt_addr := 0; get_got_addr := 0;
     get_tlsgd_addr := 0; get_gottpoff_addr := 0 |}.

Definition sample_fde : FdeRecord :=
  {| fde_contents := [20; 0; 0; 0; 28; 0; 0; 0; 1; 2; 3; 4];
     fde_rels := [ {| eh_sym := sym_callee; eh_type := R_X86_64_PC32;
                      eh_offset := 8; eh_addend := 0 |};
                   {| eh_sym := sym_local; eh_type := R_X86_64_PC32;
                      eh_offset := 16; eh_addend := 4 |} ] |}.

Definition text_section : InputSection :=
  {| shdr := {| sh_type := SHT_PROGBITS; sh_flags := 6; sh_addr := 0;
                sh_offset := 64; sh_size := 4 |};
     isec_name := ".text.f"; isec_contents := [85; 72; 137; 229];
     fdes := [sample_fde];
     rels := [mk_rela 1 R_X86_64_32 0 0; mk_rela 6 R_X86_64_PLT32 1 (-4)];
     rel_types := []; has_fragments := [true; false];
     rel_fragments := [ {| ref_frag := str_fragment; ref_addend := 0 |} ];
     reldyn_offset := 0; isec_offset := 0; osec_addr := 0; osec_offset := 0 |}.

(** ** ICF: the propagation rounds *)

(** What [gather_sections] hands to the rounds: the number of eligible
    sections ([sections.size()]) and their outgoing edges in CSR form.
    The digest vectors hold one digest per entry, eligible or not, and
    an edge may lead to any entry. *)
Record IcfGraph := {
  num_sections : nat;
  edge_indices : list nat;
  edges : list nat
}.

(** The two digest vectors [digests[0]], [digests[1]] and [slot]. *)
Record Slots := {
  digests0 : list (list Z);
  digests1 : list (list Z);
  slot : bool
}.

(** [digests[slot]] and [digests[slot ^ 1]]. *)
Definition current (st : Slots) : list (list Z) :=
  if slot st then digests1 st else digests0 st.

Definition other (st : Slots) : list (list Z) :=
  if slot st then digests0 st else digests1 st.

(** [digests[0] = digests0; digests[1] = digests[0]; slot = 0]. *)
Definition initial_slots (ds : list (list Z)) : Slots :=
  {| digests0 := ds; digests1 := ds; slot := false |}.

(** The bytes hashed for node [i] in a round: its digest, then the
    digests of [edges[begin .. end)].  Indexing outside a vector is
    undefined and gives [None]. *)
Definition node_input (g : IcfGraph) (cur : list (list Z)) (i : nat)
    : option (list Z) :=
  d ← cur !! i;
  b ← edge_indices g !! i;
  e ← (if (S i =? num_sections g)%nat then Some (length (edges g))
       else edge_indices g !! S i);
  succ ← mapM (fun j => t ← edges g !! j; cur !! t) (seq b (e - b));
  Some (d ++ concat succ).

(** One round: every node of [digests[slot ^ 1]] is overwritten with
    the hash of its input, and [slot] is flipped.  The entries past
    the eligible sections are not written. *)
Definition round (sha256 : list Z -> list Z) (g : IcfGraph) (st : Slots)
    : option Slots :=
  new ← mapM (fun i => digest_final sha256 <$> node_input g (current st) i)
         (seq 0 (num_sections g));
  if (num_sections g <=? length (other st))%nat then
    let written := new ++ drop (num_sections g) (other st) in
    Some (if slot st
          then {| digests0 := written; digests1 := digests1 st; slot := false |}
          else {| digests0 := digests0 st; digests1 := written; slot := true |})
  else None.

Fixpoint count_where (p : nat -> bool) (l : list nat) : nat :=
  match l with
  | [] => 0
  | i :: l' => (if p i then 1 else 0) + count_where p l'
  end.

(** [digests[slot][i] != digests[slot][i + 1]]. *)
Definition differ (cur : list (list Z)) (i : nat) : bool :=
  bool_decide (cur !! i <> cur !! S i).

(** [count_num_classes]: the adjacent pairs (i, i+1), for i from 0 to
    [sections.size() - 1] excluded, whose digests differ. *)
Definition count_num_classes (g : IcfGraph) (st : Slots) : nat :=
  count_where (differ (current st)) (seq 0 (num_sections g - 1)).

(** The loop [for (;;)], with [fuel] bounding the number of rounds. *)
Fixpoint propagate (sha256 : list Z -> list Z) (g : IcfGraph) (fuel : nat)
    (st : Slots) (num_classes : nat) : option Slots :=
  match fuel with
  | O => None
  | S fuel' =>
      st' ← round sha256 g st;
      let n := count_num_classes g st' in
      if (n =? num_classes)%nat then Some st'
      else propagate sha256 g fuel' st' n
  end.

(** The state after [k] rounds. *)
Fixpoint rounds (sha256 : list Z -> list Z) (g : IcfGraph) (k : nat)
    (st : Slots) : option Slots :=
  match k with
  | O => Some st
  | S k' => st' ← round sha256 g st; rounds sha256 g k' st'
  end.

(** No two nodes whose inputs differ get the same truncated hash in
    the round that starts from [st]. *)
Definition collision_free (sha256 : list Z -> list Z) (g : IcfGraph)
    (st : Slots) : Prop :=
  forall i j x y,
    (i < num_sections g)%nat -> (j < num_sections g)%nat ->
    node_input g (current st) i = Some x ->
    node_input g (current st) j = Some y ->
    digest_final sha256 x = digest_final sha256 y -> x = y.

(** The graph as [gather_sections] builds it over [m] entries: every
    node has its range of edges, and every edge leads to an entry. *)
Definition graph_ok (g : IcfGraph) (m : nat) : Prop :=
  (num_sections g <= m)%nat /\
  forall i, (i < num_sections g)%nat ->
    exists b e,
      edge_indices g !! i = Some b /\
      (if (S i =? num_sections g)%nat then Some (length (edges g))
       else edge_indices g !! S i) = Some e /\
      forall j, (b <= j < e)%nat ->
        exists t, edges g !! j = Some t /\ (t < m)%nat.

(** Both vectors hold [m] digests of [HASH_SIZE] bytes. *)
Definition slots_ok (st : Slots) (m : nat) : Prop :=
  length (digests0 st) = m /\ length (digests1 st) = m /\
  Forall (fun d => length d = HASH_SIZE) (digests0 st) /\
  Forall (fun d => length d = HASH_SIZE) (digests1 st).

(** [pack_number]: the eight bytes of the value, then zeros. *)
Definition pack_number (val : Z) : list Z :=
  le_bytes 8 val ++ replicate 8 0.

(** A stand-in for SHA-256 on small inputs: a polynomial in the bytes,
    written out on 32 bytes. *)
Definition poly_hash (bs : list Z) : list Z :=
  le_bytes 32 (fold_left (fun h b => h * 31 + b + 1) bs 0).

(** Two sections with the same initial digest that call two different
    ineligible sections. *)
Definition two_callers : IcfGraph :=
  {| num_sections := 2; edge_indices := [0; 1]%nat; edges := [2; 3]%nat |}.

Definition two_callers_digests : list (list Z) :=
  [replicate 16 1; replicate 16 1; pack_number 7; pack_number 9].

(** ** ICF: the merge phase *)

(** An entry of the vector sorted for merging: a section (a pointer,
    here a key) and its final digest. *)
Record Entry := {
  ent_isec : nat;
  ent_digest : list Z
}.

(** [InputChunk::get_priority]: [((i64)file->priority << 32) |
    get_section_idx()], the priority of the file in the high half and
    the section index in the low half.  The arithmetic is that of
    [i64]: the bits shifted beyond bit 63 are lost and bit 63 is the
    sign, so the value is negative for a priority of 2^31 or more. *)
Definition get_priority (file_priority section_idx : Z) : Z :=
  i64 (Z.lor (Z.shiftl (i64 file_priority) 32) section_idx).

(** [operator<] of [std::array]: lexicographic order. *)
Fixpoint digest_lt (a b : list Z) : bool :=
  match a, b with
  | [], [] => false
  | [], _ :: _ => true
  | _ :: _, [] => false
  | x :: a', y :: b' =>
      if x <? y then true else if y <? x then false else digest_lt a' b'
  end.

(** The comparator passed to the sort; [info] gives, for a section,
    the priority of its file and its index in the file. *)
Definition entry_lt (info : nat -> Z * Z) (a b : Entry) : bool :=
  if bool_decide (ent_digest a <> ent_digest b)
  then digest_lt (ent_digest a) (ent_digest b)
  else get_priority (info (ent_isec a)).1 (info (ent_isec a)).2
       <? get_priority (info (ent_isec b)).1 (info (ent_isec b)).2.

(** [isec->get_priority()] of the section of an entry. *)
Definition entry_priority (info : nat -> Z * Z) (e : Entry) : Z :=
  get_priority (info (ent_isec e)).1 (info (ent_isec e)).2.

(** [a] may stand before [b] in the sorted vector. *)
Definition entry_le (info : nat -> Z * Z) (a b : Entry) : Prop :=
  entry_lt info b a = false.

(** The sort, as an insertion sort under the comparator. *)
Fixpoint insert_entry (info : nat -> Z * Z) (e : Entry) (l : list Entry)
    : list Entry :=
  match l with
  | [] => [e]
  | x :: l' =>
      if entry_lt info e x then e :: x :: l' else x :: insert_entry info e l'
  end.

Definition sort_entries (info : nat -> Z * Z) (l : list Entry) : list Entry :=
  foldr (insert_entry info) [] l.

(** [while (j < entries.size() && entries[i].digest == entries[j].digest)
       entries[j++].isec->leader = leader;]
    where [rest] is [entries] from index [j] on and [ldr] maps every
    folded section to its leader (no entry for a null [leader]). *)
Fixpoint set_leader_while (d : list Z) (leader : nat) (rest : list Entry)
    (ldr : gmap nat nat) : gmap nat nat :=
  match rest with
  | [] => ldr
  | e :: rest' =>
      if bool_decide (d = ent_digest e)
      then set_leader_while d leader rest' (<[ent_isec e := leader]> ldr)
      else ldr
  end.

(** The body of the loop that elects the leaders, for index [i]. *)
Definition elect_step (entries : list Entry) (ldr : gmap nat nat) (i : nat)
    : gmap nat nat :=
  match entries !! i with
  | None => ldr
  | Some ei =>
      if (i =? 0)%nat
         || bool_decide (ent_digest <$> entries !! (i - 1)%nat
                         <> Some (ent_digest ei))
      then set_leader_while (ent_digest ei) (ent_isec ei)
             (drop (S i) entries) ldr
      else ldr
  end.

(** The loop over [i] from 0 to [entries.size() - 1] excluded.  Its
    iterations write disjoint sections; they are run in index order. *)
Definition elect_leaders (entries : list Entry) (ldr : gmap nat nat)
    : gmap nat nat :=
  foldl (elect_step entries) ldr (seq 0 (length entries - 1)).

Definition set_input_section (sym : Symbol) (s : option nat) : Symbol :=
  {| sym_name := sym_name sym; sym_file := sym_file sym;
     sym_input_section := s; sym_frag := sym_frag sym;
     sym_value := sym_value sym; st_type := st_type sym;
     sym_flags := sym_flags sym; plt_idx := plt_idx sym;
     dynsym_idx := dynsym_idx sym;
     is_placeholder := is_placeholder sym; is_imported := is_imported sym;
     is_relative := is_relative sym; get_addr := get_addr sym;
     get_plt_addr := get_plt_addr sym; get_got_addr := get_got_addr sym;
     get_tlsgd_addr := get_tlsgd_addr sym;
     get_gottpoff_addr := get_gottpoff_addr sym |}.

(** [if (sym->input_section && sym->input_section->leader)
       sym->input_section = sym->input_section->leader;]
    on the symbol the pointer [p] leads to.  The symbols live in a
    store: the tables of several files may point to one symbol. *)
Definition redirect_symbol (ldr : gmap nat nat) (store : gmap nat Symbol)
    (p : nat) : gmap nat Symbol :=
  match store !! p with
  | None => store
  | Some sym =>
      match sym_input_section sym with
      | None => store
      | Some s =>
          match ldr !! s with
          | None => store
          | Some l => <[p := set_input_section sym (Some l)]> store
          end
      end
  end.

(** The loop over the symbols of a file, and over the files. *)
Definition redirect_file (ldr : gmap nat nat) (store : gmap nat Symbol)
    (table : list nat) : gmap nat Symbol :=
  foldl (redirect_symbol ldr) store table.

Definition redirect_symbols (ldr : gmap nat nat) (store : gmap nat Symbol)
    (tables : list (list nat)) : gmap nat Symbol :=
  foldl (redirect_file ldr) store tables.

(** The symbol [p] points to no section or to a section whose [leader]
    is null. *)
Definition settled (ldr : gmap nat nat) (store : gmap nat Symbol) (p : nat)
    : Prop :=
  forall sym s,
    store !! p = Some sym -> sym_input_section sym = Some s ->
    ldr !! s = None.

(** *** The order by (digest, priority) in the words of the
    specification *)

(** The lexicographic order of two digests. *)
Inductive lex_lt : list Z -> list Z -> Prop :=
  | lex_lt_nil y b : lex_lt [] (y :: b)
  | lex_lt_head x y a b : x < y -> lex_lt (x :: a) (y :: b)
  | lex_lt_tail x a b : lex_lt a b -> lex_lt (x :: a) (x :: b).

(** [a] is not after [b]: its digest is smaller, or the digests are
    equal and its file has the smaller priority value, or the files
    have the same priority and its section index is not larger. *)
Definition key_le (info : nat -> Z * Z) (a b : Entry) : Prop :=
  lex_lt (ent_digest a) (ent_digest b) \/
  (ent_digest a = ent_digest b /\
   ((info (ent_isec a)).1 < (info (ent_isec b)).1 \/
    ((info (ent_isec a)).1 = (info (ent_isec b)).1 /\
     (info (ent_isec a)).2 <= (info (ent_isec b)).2))).

(** The priorities of the files fit in 31 bits and the section
    indices in 32, so that [get_priority] loses no bit. *)
Definition priorities_in_range (info : nat -> Z * Z) (l : list Entry) : Prop :=
  Forall (fun e => 0 <= (info (ent_isec e)).1 < 2 ^ 31 /\
                   0 <= (info (ent_isec e)).2 < 2 ^ 32) l.

(** *** Runs of equal digests *)

Definition digest_at (entries : list Entry) (k : nat) : option (list Z) :=
  ent_digest <$> entries !! k.

(** [i] is the first element of a maximal run of equal digests. *)
Definition run_start (entries : list Entry) (i : nat) : Prop :=
  (i < length entries)%nat /\
  (i = 0%nat \/ digest_at entries (i - 1) <> digest_at entries i).

(** [j] belongs to the run of equal digests that contains [i]. *)
Definition in_run (entries : list Entry) (i j : nat) : Prop :=
  (i <= j < length entries)%nat /\
  forall k, (i <= k <= j)%nat -> digest_at entries k = digest_at entries i.

(** The entries at the head of [rest] whose digest is [d]. *)
Fixpoint run_prefix (d : list Z) (rest : list Entry) : list Entry :=
  match rest with
  | [] => []
  | e :: rest' =>
      if bool_decide (d = ent_digest e) then e :: run_prefix d rest' else []
  end.

(** Three sections with the digest 1 and one with the digest 2, from
    two files, and two symbol tables sharing a symbol. *)
Definition sample_entries : list Entry :=
  [ {| ent_isec := 12; ent_digest := replicate 16 1 |};
    {| ent_isec := 20; ent_digest := replicate 16 2 |};
    {| ent_isec := 10; ent_digest := replicate 16 1 |};
    {| ent_isec := 21; ent_digest := replicate 16 1 |} ].

Definition sample_info (s : nat) : Z * Z :=
  if (s <? 20)%nat then (0, Z.of_nat s - 10) else (1, Z.of_nat s - 20).

Definition sym_in (name : string) (s : option nat) : Symbol :=
  set_input_section (mk_symbol name (Some 0%nat) false true 0) s.

Definition sample_store : gmap nat Symbol :=
  <[0%nat := sym_in "f" (Some 12%nat)]>
  (<[1%nat := sym_in "g" (Some 21%nat)]>
  (<[2%nat := sym_in "h" (Some 20%nat)]>
  (<[3%nat := sym_in "abs" None]> ∅))).

Definition sample_tables : list (list nat) := [[0; 2; 3]%nat; [1; 0]%nat].

(** * Properties *)

(** ** Eligibility *)

Lemma to_bool_true v : to_bool v = true <-> v <> 0.
Proof.
  unfold to_bool. destruct (Z.eqb_spec v 0); simpl; split; intros; congruence.
Qed.

(** A single-bit mask is included exactly when the conjunction with it
    is not zero, the test the code performs. *)
Lemma land_pow2_cases f k :
  0 <= k -> Z.land f (2 ^ k) = if Z.testbit f k then 2 ^ k else 0.
Proof.
  intros Hk. apply Z.bits_inj'. intros n Hn.
  rewrite Z.land_spec, Z.pow2_bits_eqb by lia.
  destruct (Z.eqb_spec k n) as [->|Hne].
  - destruct (Z.testbit f n) eqn:E; simpl.
    + rewrite Z.pow2_bits_true; auto.
    + now rewrite Z.bits_0.
  - rewrite andb_false_r. destruct (Z.testbit f k).
    + rewrite Z.pow2_bits_false; auto.
    + now rewrite Z.bits_0.
Qed.

Lemma to_bool_land_has_flag f k :
  0 <= k -> to_bool (Z.land f (2 ^ k)) = true <-> has_flag f (2 ^ k).
Proof.
  intros Hk. unfold has_flag. rewrite to_bool_true, land_pow2_cases by done.
  assert (0 < 2 ^ k) by (apply Z.pow_pos_nonneg; lia).
  destruct (Z.testbit f k); split; intros; try lia; congruence.
Qed.

Lemma isalpha_letter c : isalpha c = true <-> is_letter c.
Proof.
  unfold isalpha, is_letter. cbv zeta.
  rewrite orb_true_iff, !andb_true_iff, !Nat.leb_le. tauto.
Qed.

Lemma isdigit_digit c : isdigit c = true <-> is_digit c.
Proof.
  unfold isdigit, is_digit. cbv zeta. rewrite andb_true_iff, !Nat.leb_le. tauto.
Qed.

Lemma ascii_eqb_true c d : Ascii.eqb c d = true <-> c = d.
Proof. apply Ascii.eqb_eq. Qed.

Lemma ident_start_ok c :
  negb (isalpha c) && negb (Ascii.eqb c underscore) = false <-> ident_start c.
Proof.
  unfold ident_start. rewrite <- isalpha_letter, <- ascii_eqb_true.
  destruct (isalpha c), (Ascii.eqb c underscore); simpl; intuition congruence.
Qed.

Lemma ident_char_ok c :
  negb (isalnum c) && negb (Ascii.eqb c underscore) = false <-> ident_char c.
Proof.
  unfold ident_char, isalnum.
  rewrite <- isalpha_letter, <- isdigit_digit, <- ascii_eqb_true.
  destruct (isalpha c), (isdigit c), (Ascii.eqb c underscore); simpl;
    intuition congruence.
Qed.

Lemma is_c_identifier_tail_ok s :
  is_c_identifier_tail s = true <-> Forall ident_char (list_ascii_of_string s).
Proof.
  induction s as [|c s IH]; simpl.
  - split; [constructor | done].
  - destruct (negb (isalnum c) && negb (Ascii.eqb c underscore)) eqn:E.
    + split; [done |]. intros HF. apply Forall_cons_1 in HF as [Hc _].
      apply ident_char_ok in Hc. congruence.
    + rewrite IH. apply ident_char_ok in E. split.
      * intros; by constructor.
      * intros HF. by apply Forall_cons_1 in HF as [_ ?].
Qed.

Lemma is_c_identifier_ok name :
  is_c_identifier name = true <-> valid_c_identifier name.
Proof.
  unfold valid_c_identifier. destruct name as [|c rest]; simpl.
  - split; [done |]. intros (c & rest & ? & _); congruence.
  - destruct (negb (isalpha c) && negb (Ascii.eqb c underscore)) eqn:E.
    + split; [done |]. intros (c' & rest' & Heq & Hc & _).
      injection Heq as <- <-. apply ident_start_ok in Hc. congruence.
    + apply ident_start_ok in E. rewrite is_c_identifier_tail_ok. split.
      * intros HF. by exists c, rest.
      * intros (c' & rest' & Heq & _ & HF). by injection Heq as <- <-.
Qed.

(** The tests of [is_eligible], one by one, in the words of the rule. *)
Ltac eligibility_tests :=
  unfold is_eligible, eligible_by_spec; cbv zeta;
  rewrite !andb_true_iff, !negb_true_iff;
  change SHF_ALLOC with (2 ^ 1); change SHF_EXECINSTR with (2 ^ 2);
  change SHF_WRITE with (2 ^ 0);
  rewrite !to_bool_land_has_flag by lia;
  rewrite <- (to_bool_land_has_flag _ 0) by lia;
  rewrite <- is_c_identifier_ok;
  rewrite !orb_false_iff, !Z.eqb_neq, !String.eqb_neq.

(** Claim C6.  For every input section, [is_eligible] returns true if
    and only if the section's flags include SHF_ALLOC and SHF_EXECINSTR
    and exclude SHF_WRITE, its type is not SHT_NOBITS, it is neither
    .init / SHT_INIT_ARRAY nor .fini / SHT_FINI_ARRAY, and its name is
    not a valid C identifier. *)
Theorem is_eligible_iff_spec (isec : InputSection) :
  is_eligible isec = true <-> eligible_by_spec isec.
Proof.
  eligibility_tests.
  destruct (to_bool (Z.land (sh_flags (shdr isec)) (2 ^ 0)));
    destruct (is_c_identifier (isec_name isec)); intuition congruence.
Qed.

(** Claim C9, as stated, fails: a section of size 0 that is allocated,
    executable, read-only, of type SHT_PROGBITS and named like a text
    section is eligible. *)
Lemma zero_size_section_is_eligible :
  ~ (forall isec : InputSection,
       sh_size (shdr isec) = 0 -> is_eligible isec = false).
Proof.
  intros H. specialize (H empty_text_section eq_refl). vm_compute in H.
  discriminate.
Qed.

(** Claim C9, amended.  [is_eligible] never reads the size.  A section
    of size 0 is eligible exactly when it meets the conditions on the
    flags, the type and the name; it is ineligible when its type is
    SHT_NOBITS; and the answer of [is_eligible] is the same whatever
    [sh_size] is. *)
Theorem zero_size_eligibility (isec : InputSection) :
  sh_size (shdr isec) = 0 ->
  (is_eligible isec = true <-> eligible_by_spec isec) /\
  (sh_type (shdr isec) = SHT_NOBITS -> is_eligible isec = false) /\
  (forall sz, is_eligible (set_sh_size isec sz) = is_eligible isec).
Proof.
  intros _. split; [| split; [| reflexivity]].
  - eligibility_tests.
    destruct (to_bool (Z.land (sh_flags (shdr isec)) (2 ^ 0)));
      destruct (is_c_identifier (isec_name isec)); intuition congruence.
  - intros Hty. unfold is_eligible. cbv zeta. rewrite Hty. simpl.
    by rewrite !andb_false_r.
Qed.

(** The amended claim on two empty sections: the one of type
    SHT_NOBITS is ineligible, whatever size it is given. *)
Lemma zero_size_eligibility_witness :
  sh_size (shdr empty_bss_section) = 0 /\
  is_eligible empty_bss_section = false /\
  is_eligible (set_sh_size empty_bss_section 16) = is_eligible empty_bss_section.
Proof.
  split; [reflexivity |].
  destruct (zero_size_eligibility empty_bss_section eq_refl) as (_ & Hbss & Hsz).
  split; [apply Hbss; reflexivity | apply Hsz].
Defined.

(** ** The relocation classifier: one relocation *)

(** The case labels are the relocation types of the psABI. *)
Lemma decode_r_type_labels :
  decode_r_type R_X86_64_NONE = Some X_NONE /\
  decode_r_type R_X86_64_8 = Some X_8 /\
  decode_r_type R_X86_64_16 = Some X_16 /\
  decode_r_type R_X86_64_32 = Some X_32 /\
  decode_r_type R_X86_64_32S = Some X_32S /\
  decode_r_type R_X86_64_64 = Some X_64 /\
  decode_r_type R_X86_64_PC8 = Some X_PC8 /\
  decode_r_type R_X86_64_PC16 = Some X_PC16 /\
  decode_r_type R_X86_64_PC32 = Some X_PC32 /\
  decode_r_type R_X86_64_PC64 = Some X_PC64 /\
  decode_r_type R_X86_64_GOT32 = Some X_GOT32 /\
  decode_r_type R_X86_64_GOTPC32 = Some X_GOTPC32 /\
  decode_r_type R_X86_64_GOTPCREL = Some X_GOTPCREL /\
  decode_r_type R_X86_64_GOTPCRELX = Some X_GOTPCRELX /\
  decode_r_type R_X86_64_REX_GOTPCRELX = Some X_REX_GOTPCRELX /\
  decode_r_type R_X86_64_PLT32 = Some X_PLT32 /\
  decode_r_type R_X86_64_TLSGD = Some X_TLSGD /\
  decode_r_type R_X86_64_TLSLD = Some X_TLSLD /\
  decode_r_type R_X86_64_TPOFF32 = Some X_TPOFF32 /\
  decode_r_type R_X86_64_DTPOFF32 = Some X_DTPOFF32 /\
  decode_r_type R_X86_64_TPOFF64 = Some X_TPOFF64 /\
  decode_r_type R_X86_64_DTPOFF64 = Some X_DTPOFF64 /\
  decode_r_type R_X86_64_GOTTPOFF = Some X_GOTTPOFF.
Proof. repeat split. Qed.

Lemma sym_undefined_false sym :
  sym_undefined sym = false <->
  sym_file sym <> None /\ is_placeholder sym = false.
Proof.
  unfold sym_undefined. destruct (sym_file sym), (is_placeholder sym); simpl;
    intuition congruence.
Qed.

(** After [sym.flags |= mask] the flag is included. *)
Lemma set_flag_has_flag mask s : has_flag (sym_flags (set_flag mask s)) mask.
Proof.
  unfold has_flag, set_flag. simpl. apply Z.bits_inj'. intros n _.
  rewrite Z.land_spec, Z.lor_spec.
  destruct (Z.testbit (sym_flags s) n), (Z.testbit mask n); reflexivity.
Qed.

(** [sym.flags |= mask] on the symbol of the relocation, read on the
    table. *)
Lemma alter_set_flag_flag_set k sym mask syms :
  syms !! k = Some sym ->
  flag_set k sym mask syms (alter (set_flag mask) k syms).
Proof.
  intros Hk. split; [apply length_alter |]. split.
  - intros j Hj. apply list_lookup_alter_ne. congruence.
  - exists (set_flag mask sym). split.
    + by rewrite list_lookup_alter_eq, Hk.
    + split; [apply set_flag_has_flag |]. split; [| by repeat split].
      intros n _ Hm. unfold set_flag. simpl.
      by rewrite Z.lor_spec, Hm, orb_false_r.
Qed.

(** Claim C2.  A relocation of type R_X86_64_64 whose symbol is defined
    and not a placeholder is classified as follows, the cases read in
    order.  Without pie: R_ABS, and when the symbol is imported
    NEEDS_PLT is set for a code symbol and NEEDS_COPYREL otherwise.
    With pie and an imported symbol: R_DYN, NEEDS_DYNSYM set,
    [num_dynrel] incremented, an error reported when the section is
    read-only.  With pie and a relative symbol: R_ABS_DYN, [num_dynrel]
    incremented, an error reported when the section is read-only.
    Otherwise (pie, absolute local symbol): R_ABS.  A flag that is set
    is set on the symbol of the relocation, in the table of the file;
    its other flags, its other fields and the other symbols are as
    before. *)
Theorem scan_rel_64_classification (cfg : Config) (isec : InputSection)
    (i : nat) (rel : ElfRela) (rest : list ElfRela) (sym : Symbol)
    (st : ScanState) :
  r_type rel = R_X86_64_64 ->
  sc_symbols st !! r_sym rel = Some sym ->
  sym_file sym <> None ->
  is_placeholder sym = false ->
  let st' := (scan_rel cfg isec i rel rest sym st).1 in
  let readonly := negb (to_bool (Z.land (sh_flags (shdr isec)) SHF_WRITE)) in
  let pie_error :=
    if readonly then [CannotBeUsedWithPie R_X86_64_64 (sym_name sym)] else [] in
  let need := if st_type sym =? STT_FUNC then NEEDS_PLT else NEEDS_COPYREL in
  (scan_rel cfg isec i rel rest sym st).2 = false /\
  (pie cfg = false ->
     sc_rel_types st' = <[i := R_ABS]> (sc_rel_types st) /\
     (if is_imported sym
      then flag_set (r_sym rel) sym need (sc_symbols st) (sc_symbols st')
      else sc_symbols st' = sc_symbols st) /\
     sc_num_dynrel st' = sc_num_dynrel st /\
     sc_errors st' = sc_errors st) /\
  (pie cfg = true -> is_imported sym = true ->
     sc_rel_types st' = <[i := R_DYN]> (sc_rel_types st) /\
     flag_set (r_sym rel) sym NEEDS_DYNSYM (sc_symbols st) (sc_symbols st') /\
     sc_num_dynrel st' = sc_num_dynrel st + 1 /\
     sc_errors st' = sc_errors st ++ pie_error) /\
  (pie cfg = true -> is_imported sym = false -> is_relative sym = true ->
     sc_rel_types st' = <[i := R_ABS_DYN]> (sc_rel_types st) /\
     sc_symbols st' = sc_symbols st /\
     sc_num_dynrel st' = sc_num_dynrel st + 1 /\
     sc_errors st' = sc_errors st ++ pie_error) /\
  (pie cfg = true -> is_imported sym = false -> is_relative sym = false ->
     sc_rel_types st' = <[i := R_ABS]> (sc_rel_types st) /\
     sc_symbols st' = sc_symbols st /\
     sc_num_dynrel st' = sc_num_dynrel st /\
     sc_errors st' = sc_errors st).
Proof.
  intros Hty Hsym Hfile Hph. cbv zeta.
  assert (Hdef : sym_undefined sym = false)
    by (apply sym_undefined_false; done).
  pose proof (fun mask => alter_set_flag_flag_set (r_sym rel) sym mask
                            (sc_symbols st) Hsym) as Hset.
  unfold scan_rel. cbv zeta. rewrite Hdef, Hty. simpl decode_r_type. cbv iota.
  destruct (pie cfg), (is_imported sym), (is_relative sym),
    (negb (to_bool (Z.land (sh_flags (shdr isec)) SHF_WRITE)));
    simpl; rewrite ?app_nil_r;
    repeat match goal with
           | |- _ /\ _ => split
           | |- _ -> _ => intro
           end;
    first [congruence | apply Hset].
Qed.

(** The claim at the relocation of [data_section], for each of the
    three kinds of symbol under pie and for an imported symbol without
    pie.  The flags of [sym_extern], a code symbol, are 0 beforehand:
    they are NEEDS_DYNSYM, 64, after the scan under pie, and
    NEEDS_PLT, 2, after the scan without pie. *)
Lemma scan_rel_64_classification_witness :
  sc_rel_types (scan_rel cfg_pie_relax data_section 0 (mk_rela 8 R_X86_64_64 0 4)
                  [] sym_local (scan_start [sym_local] 1)).1 = [R_ABS_DYN] /\
  (sc_rel_types (scan_rel cfg_pie_relax data_section 0
                   (mk_rela 8 R_X86_64_64 0 4) [] sym_extern
                   (scan_start [sym_extern] 1)).1 = [R_DYN] /\
   flag_set 0 sym_extern 64 [sym_extern]
     (sc_symbols (scan_rel cfg_pie_relax data_section 0
                    (mk_rela 8 R_X86_64_64 0 4) [] sym_extern
                    (scan_start [sym_extern] 1)).1) /\
   sym_flags <$> sc_symbols (scan_rel cfg_pie_relax data_section 0
                    (mk_rela 8 R_X86_64_64 0 4) [] sym_extern
                    (scan_start [sym_extern] 1)).1 = [64] /\
   sc_num_dynrel (scan_rel cfg_pie_relax data_section 0
                    (mk_rela 8 R_X86_64_64 0 4) [] sym_extern
                    (scan_start [sym_extern] 1)).1 = 1) /\
  (flag_set 0 sym_extern 2 [sym_extern]
     (sc_symbols (scan_rel {| pie := false; relax := true |} data_section 0
                    (mk_rela 8 R_X86_64_64 0 4) [] sym_extern
                    (scan_start [sym_extern] 1)).1) /\
   sym_flags <$> sc_symbols (scan_rel {| pie := false; relax := true |}
                    data_section 0 (mk_rela 8 R_X86_64_64 0 4) [] sym_extern
                    (scan_start [sym_extern] 1)).1 = [2]).
Proof.
  split; [| split].
  - pose proof (scan_rel_64_classification cfg_pie_relax data_section 0
      (mk_rela 8 R_X86_64_64 0 4) [] sym_local (scan_start [sym_local] 1)
      eq_refl eq_refl ltac:(discriminate) eq_refl) as (_ & _ & _ & H & _).
    exact (proj1 (H eq_refl eq_refl eq_refl)).
  - pose proof (scan_rel_64_classification cfg_pie_relax data_section 0
      (mk_rela 8 R_X86_64_64 0 4) [] sym_extern (scan_start [sym_extern] 1)
      eq_refl eq_refl ltac:(discriminate) eq_refl) as (_ & _ & H & _).
    destruct (H eq_refl eq_refl) as (Hrt & Hfl & Hnum & _).
    split; [exact Hrt |]. split; [exact Hfl |].
    split; [reflexivity | exact Hnum].
  - pose proof (scan_rel_64_classification {| pie := false; relax := true |}
      data_section 0
      (mk_rela 8 R_X86_64_64 0 4) [] sym_extern (scan_start [sym_extern] 1)
      eq_refl eq_refl ltac:(discriminate) eq_refl) as (_ & H & _).
    destruct (H eq_refl) as (_ & Hfl & _).
    split; [exact Hfl | reflexivity].
Defined.

(** ** The output buffer *)






Lemma load_bytes_app n k loc (m : gmap Z Z) :
  load_bytes loc (n + k) m =
    load_bytes loc n m ++ load_bytes (loc + Z.of_nat n) k m.
Proof.
  revert loc. induction n as [|n IH]; intros loc; simpl.
  - by replace (loc + Z.of_nat 0) with loc by lia.
  - rewrite IH. by replace (loc + 1 + Z.of_nat n) with (loc + Z.of_nat (S n)) by lia.
Qed.


Lemma le_bytes_length n : forall v, length (le_bytes n v) = n.
Proof. induction n; intros; simpl; [done | by rewrite IHn]. Qed.




(** ** TLSGD relaxed to the local-exec model *)

Lemma scan_loop_nil cfg isec i st : scan_loop cfg isec [] i st = Some st.
Proof. done. Qed.

Lemma apply_alloc_loop_nil lay syms isec base i st :
  apply_alloc_loop lay syms isec base [] i st = Some st.
Proof. done. Qed.




(** ** Range checks *)

Lemma u64_range v : 0 <= u64 v < 2 ^ 64.
Proof. unfold u64. apply Z.mod_pos_bound. lia. Qed.

Lemma unsigned_fits w val :
  0 <= w -> 0 <= val -> val = val mod 2 ^ w <-> 0 <= val < 2 ^ w.
Proof.
  intros Hw Hval. assert (0 < 2 ^ w) by (apply Z.pow_pos_nonneg; lia). split.
  - intros ->. apply Z.mod_pos_bound. lia.
  - intros Hr. by rewrite Z.mod_small.
Qed.

(** The comparison [val != (iN)val] of [overflow_check]: the narrowed
    value, sign-extended back to 64 bits, differs from [val] exactly
    when the signed reading of [val] does not fit [N] bits. *)
Lemma signed_fits_8 val :
  0 <= val < 2 ^ 64 -> val = u64 (i8 val) <-> -128 <= i64 val <= 127.
Proof.
  unfold u64, i8, i64, sext. intros Hval.
  change (2 ^ 64) with 18446744073709551616 in *.
  change (2 ^ (64 - 1)) with 9223372036854775808.
  change (2 ^ 8) with 256. change (2 ^ (8 - 1)) with 128.
  rewrite (Z.mod_small val 18446744073709551616) by lia.
  destruct (Z.ltb_spec (val mod 256) 128), (Z.ltb_spec val 9223372036854775808);
    Z.div_mod_to_equations; lia.
Qed.

Lemma signed_fits_16 val :
  0 <= val < 2 ^ 64 -> val = u64 (i16 val) <-> -32768 <= i64 val <= 32767.
Proof.
  unfold u64, i16, i64, sext. intros Hval.
  change (2 ^ 64) with 18446744073709551616 in *.
  change (2 ^ (64 - 1)) with 9223372036854775808.
  change (2 ^ 16) with 65536. change (2 ^ (16 - 1)) with 32768.
  rewrite (Z.mod_small val 18446744073709551616) by lia.
  destruct (Z.ltb_spec (val mod 65536) 32768), (Z.ltb_spec val 9223372036854775808);
    Z.div_mod_to_equations; lia.
Qed.

Lemma signed_fits_32 val :
  0 <= val < 2 ^ 64 ->
  val = u64 (i32 val) <-> -2147483648 <= i64 val <= 2147483647.
Proof.
  unfold u64, i32, i64, sext. intros Hval.
  change (2 ^ 64) with 18446744073709551616 in *.
  change (2 ^ (64 - 1)) with 9223372036854775808.
  change (2 ^ 32) with 4294967296. change (2 ^ (32 - 1)) with 2147483648.
  rewrite (Z.mod_small val 18446744073709551616) by lia.
  destruct (Z.ltb_spec (val mod 4294967296) 2147483648),
    (Z.ltb_spec val 9223372036854775808);
    Z.div_mod_to_equations; lia.
Qed.

(** [overflow_check] reports exactly the violations of the psABI
    bound of the relocation type. *)
Lemma overflow_check_spec name r c val :
  decode_r_type r = Some c ->
  0 <= val < 2 ^ 64 ->
  (psabi_in_range c val -> overflow_check name r val = Some []) /\
  (~ psabi_in_range c val ->
   overflow_check name r val = Some [OutOfRange r name val]).
Proof.
  intros Hc Hval. unfold overflow_check. rewrite Hc. cbv zeta.
  pose proof (unsigned_fits 8 val ltac:(lia) ltac:(lia)) as U8.
  pose proof (unsigned_fits 16 val ltac:(lia) ltac:(lia)) as U16.
  pose proof (unsigned_fits 32 val ltac:(lia) ltac:(lia)) as U32.
  pose proof (signed_fits_8 val Hval) as S8.
  pose proof (signed_fits_16 val Hval) as S16.
  pose proof (signed_fits_32 val Hval) as S32.
  change (2 ^ 8) with 256 in U8. change (2 ^ 16) with 65536 in U16.
  change (2 ^ 32) with 4294967296 in U32.
  destruct c; simpl psabi_in_range; unfold u8, u16, u32;
    change (2 ^ 8) with 256; change (2 ^ 16) with 65536;
    change (2 ^ 32) with 4294967296;
    try (split; [done | tauto]);
    match goal with
    | |- context [?a =? ?b] => destruct (Z.eqb_spec a b)
    end; split; intros; try done; exfalso; intuition lia.
Qed.

(** ** The applier: range checks and stores *)


(** The lambda [write]: the check never prevents the store. *)
Lemma write_spec sym rel loc v st c :
  decode_r_type (r_type rel) = Some c ->
  exists st', write sym rel loc v st = Some st' /\
    ap_mem st' = store_bytes loc (le_bytes (write_width c) (u64 v)) (ap_mem st) /\
    (psabi_in_range c (u64 v) -> ap_errors st' = ap_errors st) /\
    (~ psabi_in_range c (u64 v) ->
     ap_errors st' = ap_errors st ++
       [OutOfRange (r_type rel) (sym_name sym) (u64 v)]) /\
    ap_reldyn st' = ap_reldyn st /\ ap_dynrel st' = ap_dynrel st /\
    ap_ref_idx st' = ap_ref_idx st.
Proof.
  intros Hc. unfold write, write_val. rewrite Hc. cbv zeta.
  destruct (overflow_check_spec (sym_name sym) (r_type rel) c (u64 v) Hc
              (u64_range v)) as [Hin Hout].
  destruct (overflow_check (sym_name sym) (r_type rel) (u64 v)) as [es|] eqn:E.
  - simpl. eexists. split; [reflexivity |]. simpl. repeat split; try done.
    + intros Hr. specialize (Hin Hr). injection Hin as ->. apply app_nil_r.
    + intros Hr. specialize (Hout Hr). by injection Hout as ->.
  - exfalso. assert (Hd : psabi_in_range c (u64 v) \/ ~ psabi_in_range c (u64 v)).
    { destruct c; simpl; lia. }
    destruct Hd as [Hr|Hr]; [specialize (Hin Hr) | specialize (Hout Hr)]; done.
Qed.






(** ** Dynamic relocations: the scan and the applier in lockstep *)

Lemma drop_replicate_cons {A} (l : list A) i n x :
  drop i l = replicate (S n) x ->
  l !! i = Some x /\ drop (S i) l = replicate n x.
Proof.
  intros Hd. split.
  - replace i with (i + 0)%nat by lia. rewrite <- lookup_drop, Hd. done.
  - replace (S i) with (i + 1)%nat by lia. rewrite <- drop_drop, Hd. done.
Qed.

Lemma lookup_of_take_eq {A} (l l' : list A) n i :
  take n l = take n l' -> (i < n)%nat -> l !! i = l' !! i.
Proof.
  intros Ht Hi. rewrite <- (lookup_take_lt l n i), <- (lookup_take_lt l' n i) by done.
  by rewrite Ht.
Qed.

Lemma take_of_take_eq {A} (l l' : list A) n k :
  take n l = take n l' -> (k <= n)%nat -> take k l = take k l'.
Proof.
  intros Ht Hk. replace k with (k `min` n)%nat by lia.
  by rewrite <- !take_take, Ht.
Qed.

(** What one iteration of the scan does to the slot [i], the counter
    and the loop index. *)
Lemma scan_rel_effect cfg isec i rel rest sym st :
  sc_rel_types st !! i = Some R_NONE ->
  exists t,
    sc_rel_types (scan_rel cfg isec i rel rest sym st).1
      = <[i := t]> (sc_rel_types st) /\
    sc_num_dynrel (scan_rel cfg isec i rel rest sym st).1
      = sc_num_dynrel st + (if is_dyn_kind t then 1 else 0) /\
    (scan_rel cfg isec i rel rest sym st).2 = is_relax_kind t /\
    length (sc_symbols (scan_rel cfg isec i rel rest sym st).1)
      = length (sc_symbols st) /\
    (uses_write t = true -> is_Some (decode_r_type (r_type rel))).
Proof.
  intros Hi. pose proof (list_insert_id _ _ _ Hi) as Hid.
  unfold scan_rel. cbv zeta.
  destruct (sym_undefined sym).
  { exists R_NONE. simpl. rewrite Hid. repeat split; try done. lia. }
  destruct (decode_r_type (r_type rel)) as [c|] eqn:Hc.
  2: { exists R_NONE. simpl. rewrite Hid. repeat split; try done. lia. }
  destruct c; unfold when;
    repeat match goal with
           | |- context [if ?b then _ else _] => destruct b
           end;
    simpl; eexists; (split; [reflexivity |]);
    simpl; rewrite ?length_alter; repeat split; eauto; lia.
Qed.

Lemma scan_loop_classified cfg isec : forall n rest i st st',
  (length rest <= n)%nat ->
  scan_loop cfg isec rest i st = Some st' ->
  length (sc_rel_types st) = (i + length rest)%nat ->
  drop i (sc_rel_types st) = replicate (length rest) R_NONE ->
  classified rest (drop i (sc_rel_types st')) /\
  take i (sc_rel_types st') = take i (sc_rel_types st) /\
  length (sc_rel_types st') = length (sc_rel_types st) /\
  sc_num_dynrel st'
    = sc_num_dynrel st + Z.of_nat (count_dyn (drop i (sc_rel_types st'))) /\
  length (sc_symbols st') = length (sc_symbols st).
Proof.
  induction n as [|n IH]; intros rest i st st' Hn Hloop Hlen Hnone.
  { destruct rest; [| simpl in Hn; lia]. simpl in *. injection Hloop as <-.
    rewrite drop_ge by lia. repeat split; [constructor | simpl; lia]. }
  destruct rest as [|rel rest'].
  { simpl in *. injection Hloop as <-.
    rewrite drop_ge by lia. repeat split; [constructor | simpl; lia]. }
  simpl in Hloop, Hlen, Hnone, Hn.
  destruct (sc_symbols st !! r_sym rel) as [sym|]; [| done].
  apply drop_replicate_cons in Hnone as [Hi Hnone].
  destruct (scan_rel_effect cfg isec i rel rest' sym st Hi)
    as (t & Hrts & Hnum & Hskip & Hsyms & Hdec).
  destruct (scan_rel cfg isec i rel rest' sym st) as [st1 skip].
  simpl in Hrts, Hnum, Hskip, Hsyms.
  assert (Hlen1 : length (sc_rel_types st1) = length (sc_rel_types st))
    by (rewrite Hrts; apply length_insert).
  assert (Hi1 : sc_rel_types st1 !! i = Some t)
    by (rewrite Hrts; apply list_lookup_insert_eq; lia).
  assert (Htake1 : take i (sc_rel_types st1) = take i (sc_rel_types st))
    by (rewrite Hrts; apply take_insert_ge; lia).
  assert (Hdrop1 : drop (S i) (sc_rel_types st1) = replicate (length rest') R_NONE)
    by (rewrite Hrts, drop_insert_lt by lia; done).
  destruct skip.
  - (* the body stepped over the next relocation *)
    destruct rest' as [|nx rest''].
    + injection Hloop as <-. simpl in Hlen.
      assert (Hd : drop i (sc_rel_types st1) = [t]).
      { rewrite (drop_S _ _ _ Hi1). rewrite drop_ge by lia. done. }
      rewrite Hd. simpl. symmetry in Hskip.
      repeat split; try done; try lia.
      * by constructor.
      * destruct t; simpl in *; try discriminate; lia.
    + simpl in Hdrop1. apply drop_replicate_cons in Hdrop1 as [Hi2 Hdrop2].
      destruct (IH rest'' (S (S i)) st1 st') as (Hcl & Htk & Hl & Hnm & Hsy);
        [simpl in Hn; lia | done | simpl in *; lia | done |].
      assert (Ht : sc_rel_types st' !! i = Some t).
      { rewrite (lookup_of_take_eq _ _ _ i Htk) by lia. done. }
      assert (Hn1 : sc_rel_types st' !! S i = Some R_NONE).
      { rewrite (lookup_of_take_eq _ _ _ (S i) Htk) by lia. done. }
      rewrite (drop_S _ _ _ Ht), (drop_S _ _ _ Hn1). symmetry in Hskip.
      split; [by constructor |].
      split; [rewrite (take_of_take_eq _ _ _ i Htk) by lia; done |].
      split; [lia |]. split; [| lia].
      simpl count_dyn. rewrite Hnm, Hnum.
      destruct t; simpl in *; try discriminate; lia.
  - destruct (IH rest' (S i) st1 st') as (Hcl & Htk & Hl & Hnm & Hsy);
      [lia | done | lia | done |].
    assert (Ht : sc_rel_types st' !! i = Some t).
    { rewrite (lookup_of_take_eq _ _ _ i Htk) by lia. done. }
    rewrite (drop_S _ _ _ Ht). symmetry in Hskip.
    split; [by constructor |].
    split; [rewrite (take_of_take_eq _ _ _ i Htk) by lia; done |].
    split; [lia |]. split; [| lia].
    simpl count_dyn. rewrite Hnm, Hnum. destruct (is_dyn_kind t); lia.
Qed.

Lemma slot_offsets_app p a b :
  slot_offsets p (a + b)
    = slot_offsets p a ++ slot_offsets (p + sizeof_ElfRela * Z.of_nat a) b.
Proof.
  unfold slot_offsets. rewrite seq_app, fmap_app. f_equal.
  simpl.
  replace (seq a b) with (Nat.add a <$> seq 0 b)
    by (rewrite fmap_add_seq; f_equal; lia).
  rewrite <- list_fmap_compose.
  apply list_fmap_ext. intros _ k _. simpl. lia.
Qed.

Lemma slot_offsets_length p n : length (slot_offsets p n) = n.
Proof. unfold slot_offsets. by rewrite length_fmap, length_seq. Qed.

(** What the switch of the applier does to the records, for a kind
    the scan can have produced. *)
Lemma apply_rel_effect lay isec loc rel sym ref t st p :
  ap_dynrel st = Some p ->
  (uses_write t = true -> is_Some (decode_r_type (r_type rel))) ->
  exists st',
    apply_rel lay isec loc rel sym ref t st = Some (st', is_relax_kind t) /\
    ap_dynrel st' = Some (p + (if is_dyn_kind t then sizeof_ElfRela else 0)) /\
    (ap_reldyn st').*1 = (ap_reldyn st).*1 ++ (if is_dyn_kind t then [p] else []) /\
    ap_ref_idx st' = ap_ref_idx st.
Proof.
  intros Hp Hdec. unfold apply_rel. cbv zeta.
  destruct (uses_write t) eqn:Hw.
  - destruct (Hdec eq_refl) as [c Hc].
    assert (Hwr : forall v, exists st', write sym rel loc v st = Some st' /\
              ap_reldyn st' = ap_reldyn st /\ ap_dynrel st' = ap_dynrel st /\
              ap_ref_idx st' = ap_ref_idx st).
    { intros v. destruct (write_spec sym rel loc v st c Hc)
        as (st' & Hs & _ & _ & _ & ? & ? & ?). eauto. }
    destruct t; try discriminate Hw;
      match goal with
      | |- context [write sym rel loc ?v st] =>
          destruct (Hwr v) as (st' & -> & Hr & Hd & Hi)
      end; simpl.
    all: try (exists st'; rewrite Hr, Hd, Hi, Hp, app_nil_r, Z.add_0_r; done).
    unfold emit_dynrel. rewrite Hd, Hp. simpl. eexists. split; [done |].
    simpl. rewrite fmap_app, Hr, Hi. done.
  - destruct t; try discriminate Hw; simpl.
    + exists st. by rewrite Hp, app_nil_r, Z.add_0_r.
    + unfold emit_dynrel. rewrite Hp. simpl. eexists. split; [done |].
      simpl. by rewrite fmap_app.
    + eexists. split; [done |]. simpl. by rewrite Hp, app_nil_r, Z.add_0_r.
    + eexists. split; [done |]. simpl. by rewrite Hp, app_nil_r, Z.add_0_r.
Qed.

Lemma count_true_drop_S hf i (b : bool) :
  hf !! i = Some b ->
  count_true (drop i hf) = ((if b then 1 else 0) + count_true (drop (S i) hf))%nat.
Proof. intros H. by rewrite (drop_S _ _ _ H). Qed.

Lemma count_true_drop_le hf : forall i,
  (count_true (drop (S i) hf) <= count_true (drop i hf))%nat.
Proof.
  induction hf as [|b hf IH]; intros i; [by rewrite !drop_nil |].
  destruct i; simpl.
  - rewrite drop_0. lia.
  - apply IH.
Qed.

Lemma apply_alloc_step_effect lay syms isec base i rel t st p :
  (r_sym rel < length syms)%nat ->
  (i < length (has_fragments isec))%nat ->
  (ap_ref_idx st + count_true (drop i (has_fragments isec))
     <= length (rel_fragments isec))%nat ->
  rel_types isec !! i = Some t ->
  (uses_write t = true -> is_Some (decode_r_type (r_type rel))) ->
  ap_dynrel st = Some p ->
  exists st',
    apply_alloc_step lay syms isec base i rel st = Some (st', is_relax_kind t) /\
    ap_dynrel st' = Some (p + (if is_dyn_kind t then sizeof_ElfRela else 0)) /\
    (ap_reldyn st').*1 = (ap_reldyn st).*1 ++ (if is_dyn_kind t then [p] else []) /\
    (ap_ref_idx st' + count_true (drop (S i) (has_fragments isec))
       <= length (rel_fragments isec))%nat.
Proof.
  intros Hsym Hhf Hfr Hrt Hdec Hp. unfold apply_alloc_step.
  destruct (lookup_lt_is_Some_2 syms _ Hsym) as [sym ->]. simpl.
  destruct (lookup_lt_is_Some_2 _ _ Hhf) as [b Hb].
  rewrite (count_true_drop_S _ _ _ Hb) in Hfr.
  unfold take_fragment_ref. rewrite Hb. simpl.
  destruct b.
  - destruct (lookup_lt_is_Some_2 (rel_fragments isec) (ap_ref_idx st))
      as [r ->]; [lia |].
    simpl. rewrite Hrt. simpl.
    destruct (apply_rel_effect lay isec (base + r_offset rel) rel sym (Some r) t
                (ap_set_ref_idx (S (ap_ref_idx st)) st) p Hp Hdec)
      as (st' & -> & Hd & Hr & Hi).
    exists st'. repeat split; try done. rewrite Hi. simpl. lia.
  - rewrite Hrt. simpl.
    destruct (apply_rel_effect lay isec (base + r_offset rel) rel sym None t
                st p Hp Hdec) as (st' & -> & Hd & Hr & Hi).
    exists st'. repeat split; try done. rewrite Hi. lia.
Qed.

Lemma apply_loop_classified lay syms isec base : forall rest suffix,
  classified rest suffix ->
  forall i st p,
    drop i (rel_types isec) = suffix ->
    Forall (fun rel => (r_sym rel < length syms)%nat) rest ->
    length (has_fragments isec) = (i + length rest)%nat ->
    (ap_ref_idx st + count_true (drop i (has_fragments isec))
       <= length (rel_fragments isec))%nat ->
    ap_dynrel st = Some p ->
    exists st',
      apply_alloc_loop lay syms isec base rest i st = Some st' /\
      (ap_reldyn st').*1 = (ap_reldyn st).*1 ++ slot_offsets p (count_dyn suffix).
Proof.
  induction 1 as [| rel t Hrx | rel nx rest t rts Hrx Hcl IH
                  | rel rest t rts Hrx Hdec Hcl IH];
    intros i st p Hdrop Hsyms Hhf Hfr Hp.
  - exists st. by rewrite app_nil_r.
  - assert (Ht : rel_types isec !! i = Some t).
    { replace i with (i + 0)%nat by lia. by rewrite <- lookup_drop, Hdrop. }
    apply Forall_cons_1 in Hsyms as [Hs _]. simpl in Hhf.
    destruct (apply_alloc_step_effect lay syms isec base i rel t st p)
      as (st' & Hstep & Hd & Hr & Hf); try done; try lia.
    { destruct t; done. }
    simpl apply_alloc_loop. rewrite Hstep, Hrx.
    exists st'. split; [done |]. rewrite Hr.
    destruct t; try discriminate Hrx; done.
  - assert (Ht : rel_types isec !! i = Some t).
    { replace i with (i + 0)%nat by lia. by rewrite <- lookup_drop, Hdrop. }
    apply Forall_cons_1 in Hsyms as [Hs Hsyms].
    apply Forall_cons_1 in Hsyms as [_ Hsyms]. simpl in Hhf.
    destruct (apply_alloc_step_effect lay syms isec base i rel t st p)
      as (st1 & Hstep & Hd & Hr & Hf); try done; try lia.
    { destruct t; done. }
    simpl apply_alloc_loop. rewrite Hstep, Hrx.
    destruct (IH (S (S i)) st1 p) as (st' & Hloop & Hrecs); try done.
    + replace (S (S i)) with (i + 2)%nat by lia. by rewrite <- drop_drop, Hdrop.
    + lia.
    + pose proof (count_true_drop_le (has_fragments isec) (S i)). lia.
    + rewrite Hd. destruct t; try discriminate Hrx; simpl; f_equal; lia.
    + exists st'. split; [done |]. rewrite Hrecs, Hr.
      destruct t; try discriminate Hrx; simpl; by rewrite app_nil_r.
  - assert (Ht : rel_types isec !! i = Some t).
    { replace i with (i + 0)%nat by lia. by rewrite <- lookup_drop, Hdrop. }
    apply Forall_cons_1 in Hsyms as [Hs Hsyms]. simpl in Hhf.
    destruct (apply_alloc_step_effect lay syms isec base i rel t st p)
      as (st1 & Hstep & Hd & Hr & Hf); try done; try lia.
    simpl apply_alloc_loop. rewrite Hstep, Hrx.
    destruct (IH (S i) st1 (p + (if is_dyn_kind t then sizeof_ElfRela else 0)))
      as (st' & Hloop & Hrecs); try done.
    + replace (S i) with (i + 1)%nat by lia. by rewrite <- drop_drop, Hdrop.
    + lia.
    + exists st'. split; [done |]. rewrite Hrecs, Hr, <- app_assoc. f_equal.
      simpl count_dyn. rewrite slot_offsets_app.
      destruct (is_dyn_kind t); simpl.
      * unfold slot_offsets at 1. simpl. do 2 f_equal; lia.
      * do 2 f_equal; lia.
Qed.

(** The applier of the sections that are not SHF_ALLOC. *)

Lemma overflow_check_some name r c val :
  decode_r_type r = Some c -> 0 <= val < 2 ^ 64 ->
  exists es, overflow_check name r val = Some es /\ (length es <= 1)%nat.
Proof.
  intros Hc Hval.
  destruct (overflow_check_spec name r c val Hc Hval) as [Hin Hout].
  assert (Hd : psabi_in_range c val \/ ~ psabi_in_range c val)
    by (destruct c; simpl; lia).
  destruct Hd as [Hr|Hr].
  - exists []. split; [by apply Hin | simpl; lia].
  - eexists. split; [by apply Hout | simpl; lia].
Qed.

Lemma apply_nonalloc_step_effect lay syms isec base i rel st :
  (r_sym rel < length syms)%nat ->
  (i < length (has_fragments isec))%nat ->
  (ap_ref_idx st + count_true (drop i (has_fragments isec))
     <= length (rel_fragments isec))%nat ->
  exists st' es,
    apply_nonalloc_step lay syms isec base i rel st = Some st' /\
    ap_errors st' = ap_errors st ++ es /\ (length es <= 1)%nat /\
    ap_reldyn st' = ap_reldyn st /\
    (ap_ref_idx st' + count_true (drop (S i) (has_fragments isec))
       <= length (rel_fragments isec))%nat.
Proof.
  intros Hsym Hhf Hfr. unfold apply_nonalloc_step.
  destruct (lookup_lt_is_Some_2 syms _ Hsym) as [sym ->]. simpl.
  pose proof (count_true_drop_le (has_fragments isec) i) as Hle.
  destruct (sym_undefined sym).
  { eexists _, [_]. split; [reflexivity |]. simpl. repeat split; lia. }
  destruct (lookup_lt_is_Some_2 _ _ Hhf) as [b Hb].
  rewrite (count_true_drop_S _ _ _ Hb) in Hfr.
  unfold take_fragment_ref. rewrite Hb. simpl.
  assert (Href : exists ref st1,
    (if b then
       rel_fragments isec !! ap_ref_idx st
       ≫= (fun r => Some (Some r, ap_set_ref_idx (S (ap_ref_idx st)) st))
     else Some (None, st)) = Some (ref, st1) /\
    ap_errors st1 = ap_errors st /\ ap_reldyn st1 = ap_reldyn st /\
    (ap_ref_idx st1 + count_true (drop (S i) (has_fragments isec))
       <= length (rel_fragments isec))%nat).
  { destruct b.
    - destruct (lookup_lt_is_Some_2 (rel_fragments isec) (ap_ref_idx st))
        as [r ->]; [lia |].
      eexists _, _. split; [reflexivity |]. simpl. repeat split; lia.
    - eexists _, _. split; [reflexivity |]. repeat split; lia. }
  destruct Href as (ref & st1 & -> & He1 & Hr1 & Hf1). simpl.
  destruct (decode_r_type (r_type rel)) as [c|] eqn:Hc.
  2: { eexists _, [_]. split; [reflexivity |]. simpl.
       rewrite He1. repeat split; try done; lia. }
  assert (Hov : forall v, exists es,
            overflow_check (sym_name sym) (r_type rel) (u64 v) = Some es /\
            (length es <= 1)%nat).
  { intros v. eapply overflow_check_some; [done | apply u64_range]. }
  unfold write_val. rewrite Hc.
  destruct c;
    try (eexists _, [_]; split; [reflexivity |]; simpl; rewrite He1;
         repeat split; try done; lia);
    try (match goal with
         | |- context [overflow_check _ _ (u64 ?v)] =>
             destruct (Hov v) as (es & -> & Hes)
         end;
         eexists _, es; split; [reflexivity |]; simpl; rewrite He1;
         repeat split; try done; lia);
    eexists _, []; (split; [reflexivity |]); simpl; rewrite app_nil_r;
    repeat split; try done; lia.
Qed.

Lemma apply_nonalloc_loop_effect lay syms isec base : forall rest i st,
  Forall (fun rel => (r_sym rel < length syms)%nat) rest ->
  length (has_fragments isec) = (i + length rest)%nat ->
  (ap_ref_idx st + count_true (drop i (has_fragments isec))
     <= length (rel_fragments isec))%nat ->
  exists st' es,
    apply_nonalloc_loop lay syms isec base rest i st = Some st' /\
    ap_errors st' = ap_errors st ++ es /\ (length es <= length rest)%nat /\
    ap_reldyn st' = ap_reldyn st.
Proof.
  induction rest as [|rel rest IH]; intros i st Hsyms Hhf Hfr.
  - exists st, []. simpl. by rewrite app_nil_r.
  - apply Forall_cons_1 in Hsyms as [Hs Hsyms]. simpl in Hhf.
    destruct (apply_nonalloc_step_effect lay syms isec base i rel st)
      as (st1 & es1 & Hstep & He1 & Hl1 & Hr1 & Hf1); [done | lia | done |].
    destruct (IH (S i) st1) as (st' & es & Hloop & He & Hl & Hr);
      [done | lia | done |].
    exists st', (es1 ++ es). simpl. rewrite Hstep. simpl.
    split; [done |]. rewrite He, He1, Hr, Hr1, length_app, <- app_assoc.
    repeat split; try done. lia.
Qed.

(** [apply_reloc_nonalloc] runs to the end of a section whose vectors
    are consistent, and stores no record in .rela.dyn. *)
Lemma apply_reloc_nonalloc_total lay file isec base m errs :
  Forall (fun rel => (r_sym rel < length (symbols file))%nat) (rels isec) ->
  length (has_fragments isec) = length (rels isec) ->
  (count_true (has_fragments isec) <= length (rel_fragments isec))%nat ->
  exists st,
    apply_reloc_nonalloc lay file isec base m errs = Some st /\
    ap_reldyn st = [].
Proof.
  intros Hsyms Hhf Hfr. unfold apply_reloc_nonalloc.
  destruct (apply_nonalloc_loop_effect lay (symbols file) isec base
              (rels isec) 0
              {| ap_mem := m; ap_dynrel := None; ap_reldyn := [];
                 ap_errors := errs; ap_ref_idx := 0 |})
    as (st & es & Hloop & He & Hl & Hr); try done.
  by exists st.
Qed.

Lemma scan_rel_symbols_length cfg isec i rel rest sym st :
  length (sc_symbols (scan_rel cfg isec i rel rest sym st).1)
    = length (sc_symbols st).
Proof.
  unfold scan_rel. cbv zeta.
  destruct (sym_undefined sym); [done |].
  destruct (decode_r_type (r_type rel)) as [c|]; [| done].
  destruct c; unfold when;
    repeat match goal with
           | |- context [if ?b then _ else _] => destruct b
           end;
    simpl; rewrite ?length_alter; done.
Qed.

(** The scan loop runs to its end when every relocation names a symbol
    of the table. *)
Lemma scan_loop_total cfg isec : forall n rest i st,
  (length rest <= n)%nat ->
  Forall (fun rel => (r_sym rel < length (sc_symbols st))%nat) rest ->
  is_Some (scan_loop cfg isec rest i st).
Proof.
  induction n as [|n IH]; intros rest i st Hn Hsyms.
  { destruct rest; [by eexists | simpl in Hn; lia]. }
  destruct rest as [|rel rest']; [by eexists |].
  apply Forall_cons_1 in Hsyms as [Hs Hsyms]. simpl in Hn. simpl.
  destruct (lookup_lt_is_Some_2 _ _ Hs) as [sym ->].
  pose proof (scan_rel_symbols_length cfg isec i rel rest' sym st) as Hl.
  destruct (scan_rel cfg isec i rel rest' sym st) as [st1 skip]. simpl in Hl.
  rewrite <- Hl in Hsyms.
  destruct skip.
  - destruct rest' as [|nx rest'']; [by eexists |].
    apply Forall_cons_1 in Hsyms as [_ Hsyms]. apply IH; [simpl in Hn; lia | done].
  - apply IH; [lia | done].
Qed.

Lemma resize_fresh n : resize_rel_types n [] = replicate n R_NONE.
Proof. unfold resize_rel_types. simpl. by rewrite take_nil, Nat.sub_0_r. Qed.

(** The scan of one SHF_ALLOC section. *)
Lemma scan_relocations_alloc cfg isec syms ndyn errs :
  is_alloc isec = true ->
  parsed_section (length syms) isec ->
  exists isec' syms' ndyn' errs',
    scan_relocations cfg isec syms ndyn errs = Some (isec', syms', ndyn', errs') /\
    ndyn' = ndyn + Z.of_nat (count_dyn (rel_types isec')) /\
    length syms' = length syms /\
    reldyn_offset isec' = ndyn * sizeof_ElfRela /\
    is_alloc isec' = true /\
    classified (rels isec') (rel_types isec') /\
    rels isec' = rels isec /\
    has_fragments isec' = has_fragments isec /\
    rel_fragments isec' = rel_fragments isec /\
    shdr isec' = shdr isec /\
    osec_offset isec' = osec_offset isec /\
    isec_offset isec' = isec_offset isec.
Proof.
  intros Halloc (Hsyms & Hhf & Hfr & Hfresh).
  unfold scan_relocations. unfold is_alloc in Halloc. rewrite Halloc. simpl.
  rewrite Hfresh, resize_fresh.
  set (st := {| sc_symbols := syms; sc_num_dynrel := ndyn;
                sc_rel_types := replicate (length (rels isec)) R_NONE;
                sc_errors := errs |}).
  destruct (scan_loop_total cfg isec (length (rels isec)) (rels isec) 0 st)
    as [st' Hloop]; [done | done |].
  rewrite Hloop. simpl.
  destruct (scan_loop_classified cfg isec (length (rels isec)) (rels isec) 0 st st')
    as (Hcl & _ & _ & Hnum & Hlen); [done | done | | |].
  { simpl. by rewrite length_replicate. }
  { done. }
  rewrite drop_0 in Hcl, Hnum.
  do 4 eexists. split; [reflexivity |]. simpl. repeat split; try done.
Qed.

(** The applier on a scanned SHF_ALLOC section stores one record per
    relocation classified R_DYN or R_ABS_DYN, in consecutive slots
    from the section's [reldyn_offset] on. *)
Lemma apply_reloc_alloc_records lay file isec base m aerrs off :
  classified (rels isec) (rel_types isec) ->
  Forall (fun rel => (r_sym rel < length (symbols file))%nat) (rels isec) ->
  length (has_fragments isec) = length (rels isec) ->
  (count_true (has_fragments isec) <= length (rel_fragments isec))%nat ->
  reldyn_sh_offset lay = Some off ->
  exists st',
    apply_reloc_alloc lay file isec base m aerrs = Some st' /\
    (ap_reldyn st').*1
      = slot_offsets (off + file_reldyn_offset file + reldyn_offset isec)
          (count_dyn (rel_types isec)).
Proof.
  intros Hcl Hsyms Hhf Hfr Hoff. unfold apply_reloc_alloc. rewrite Hoff.
  destruct (apply_loop_classified lay (symbols file) isec base _ _ Hcl 0%nat
    {| ap_mem := m;
       ap_dynrel := Some (off + file_reldyn_offset file + reldyn_offset isec);
       ap_reldyn := []; ap_errors := aerrs; ap_ref_idx := 0 |}
    (off + file_reldyn_offset file + reldyn_offset isec))
    as (st' & Hloop & Hrecs); try done.
  exists st'. split; [done |]. by rewrite Hrecs.
Qed.

(** [copy_buf] on a scanned SHF_ALLOC section: no record for a section
    without bytes, else one record per relocation classified R_DYN or
    R_ABS_DYN, in consecutive slots from the section's [reldyn_offset]
    on. *)
Lemma copy_buf_alloc_records lay file isec m aerrs off :
  is_alloc isec = true ->
  classified (rels isec) (rel_types isec) ->
  Forall (fun rel => (r_sym rel < length (symbols file))%nat) (rels isec) ->
  length (has_fragments isec) = length (rels isec) ->
  (count_true (has_fragments isec) <= length (rel_fragments isec))%nat ->
  reldyn_sh_offset lay = Some off ->
  exists st',
    copy_buf lay file isec m aerrs = Some st' /\
    (ap_reldyn st').*1
      = if has_no_bytes isec then []
        else slot_offsets (off + file_reldyn_offset file + reldyn_offset isec)
               (count_dyn (rel_types isec)).
Proof.
  intros Halloc Hcl Hsyms Hhf Hfr Hoff. unfold copy_buf, has_no_bytes.
  destruct ((sh_type (shdr isec) =? SHT_NOBITS) || (sh_size (shdr isec) =? 0)).
  - by eexists.
  - unfold is_alloc in Halloc. cbv zeta. rewrite Halloc.
    by apply apply_reloc_alloc_records.
Qed.

(** [copy_buf] on a section that is not SHF_ALLOC stores no record. *)
Lemma copy_buf_nonalloc_records lay file isec m aerrs :
  is_alloc isec = false ->
  Forall (fun rel => (r_sym rel < length (symbols file))%nat) (rels isec) ->
  length (has_fragments isec) = length (rels isec) ->
  (count_true (has_fragments isec) <= length (rel_fragments isec))%nat ->
  exists st', copy_buf lay file isec m aerrs = Some st' /\ ap_reldyn st' = [].
Proof.
  intros Halloc Hsyms Hhf Hfr. unfold copy_buf.
  destruct ((sh_type (shdr isec) =? SHT_NOBITS) || (sh_size (shdr isec) =? 0)).
  - by eexists.
  - unfold is_alloc in Halloc. cbv zeta. rewrite Halloc.
    by apply apply_reloc_nonalloc_total.
Qed.

Lemma classified_nil_inv rts : classified [] rts -> rts = [].
Proof. by inversion 1. Qed.

Lemma scan_sections_spec cfg : forall secs syms ndyn errs,
  parsed_sections (length syms) secs ->
  exists secs' syms' ndyn' errs',
    scan_sections cfg secs syms ndyn errs = Some (secs', syms', ndyn', errs') /\
    ndyn' = ndyn + Z.of_nat (file_dyn_count secs') /\
    length syms' = length syms /\
    (relocs_have_bytes secs ->
     forall p, written_slots p secs' = slot_offsets p (file_dyn_count secs')) /\
    forall lay file m aerrs off,
      length (symbols file) = length syms ->
      reldyn_sh_offset lay = Some off ->
      exists m' recs aerrs',
        copy_buf_sections lay file secs' m aerrs = Some (m', recs, aerrs') /\
        recs.*1 = written_slots
                    (off + file_reldyn_offset file + sizeof_ElfRela * ndyn)
                    secs'.
Proof.
  induction secs as [|[isec|] secs IH]; intros syms ndyn errs Hp.
  - exists [], syms, ndyn, errs. simpl.
    split; [done |]. split; [lia |]. split; [done |]. split; [done |].
    intros. by do 3 eexists.
  - apply Forall_cons_1 in Hp as [Hsec Hp].
    destruct (is_alloc isec) eqn:Halloc.
    + destruct (scan_relocations_alloc cfg isec syms ndyn errs Halloc Hsec)
        as (isec' & syms1 & ndyn1 & errs1 & Hscan & Hn1 & Hl1 & Hoff' & Ha' &
            Hcl & Hrels & Hhf & Hfr & Hshdr & _).
      destruct (IH syms1 ndyn1 errs1) as
        (secs' & syms' & ndyn' & errs' & Hrest & Hn' & Hl' & Hfull & Happ).
      { by rewrite Hl1. }
      simpl scan_sections. rewrite Hscan. simpl. rewrite Hrest. simpl.
      do 4 eexists. split; [reflexivity |].
      simpl file_dyn_count. rewrite Ha'.
      split; [lia |]. split; [lia |]. split.
      * intros Hb p. apply Forall_cons_1 in Hb as [Hb Hbs].
        simpl written_slots. rewrite Ha', (Hfull Hbs), slot_offsets_app.
        f_equal. assert (Hnb : has_no_bytes isec' = has_no_bytes isec)
          by (unfold has_no_bytes; by rewrite Hshdr).
        rewrite Hnb. destruct (has_no_bytes isec) eqn:He; [| done].
        rewrite (Hb Halloc eq_refl) in Hrels.
        rewrite Hrels in Hcl. by rewrite (classified_nil_inv _ Hcl).
      * intros lay file m aerrs off Hlen Hoff.
        destruct Hsec as (Hsyms & Hhf0 & Hfr0 & _).
        destruct (copy_buf_alloc_records lay file isec' m aerrs off)
          as (st' & Hap & Hrecs); try done.
        { rewrite Hrels, Hlen. done. }
        { by rewrite Hhf, Hrels. }
        { by rewrite Hhf, Hfr. }
        destruct (Happ lay file (ap_mem st') (ap_errors st') off)
          as (m' & recs & aerrs' & Hap' & Hrecs'); [lia | done |].
        simpl copy_buf_sections. rewrite Hap. simpl. rewrite Hap'. simpl.
        do 3 eexists. split; [reflexivity |].
        simpl written_slots. rewrite Ha'.
        rewrite fmap_app, Hrecs, Hrecs', Hoff'.
        f_equal; [destruct (has_no_bytes isec'); [done |] |]; f_equal; lia.
    + destruct (IH syms ndyn errs Hp) as
        (secs' & syms' & ndyn' & errs' & Hrest & Hn' & Hl' & Hfull & Happ).
      simpl scan_sections. unfold scan_relocations.
      pose proof Halloc as Halloc'.
      unfold is_alloc in Halloc. rewrite Halloc. simpl. rewrite Hrest. simpl.
      do 4 eexists. split; [reflexivity |].
      simpl file_dyn_count. rewrite Halloc'.
      split; [lia |]. split; [lia |]. split.
      * intros Hb p. apply Forall_cons_1 in Hb as [_ Hbs].
        simpl written_slots. rewrite Halloc'. by apply Hfull.
      * intros lay file m aerrs off Hlen Hoff.
        destruct Hsec as (Hsyms & Hhf0 & Hfr0 & _).
        destruct (copy_buf_nonalloc_records lay file isec m aerrs)
          as (st' & Hap & Hnone); try done.
        { by rewrite Hlen. }
        destruct (Happ lay file (ap_mem st') (ap_errors st') off)
          as (m' & recs & aerrs' & Hap' & Hrecs'); [lia | done |].
        simpl copy_buf_sections. rewrite Hap. simpl. rewrite Hap'. simpl.
        do 3 eexists. split; [reflexivity |].
        simpl written_slots. rewrite Halloc', Hnone. done.
  - apply Forall_cons_1 in Hp as [_ Hp].
    destruct (IH syms ndyn errs Hp) as
      (secs' & syms' & ndyn' & errs' & Hrest & Hn' & Hl' & Hfull & Happ).
    simpl scan_sections. rewrite Hrest. simpl.
    do 4 eexists. split; [reflexivity |]. simpl.
    split; [lia |]. split; [lia |]. split; [| done].
    intros Hb p. apply Forall_cons_1 in Hb as [_ Hbs]. by apply Hfull.
Qed.

(** Claim C1, as stated, fails for a section without bytes.  The scan
    counts the relocations of every SHF_ALLOC section, but [copy_buf]
    returns before [apply_reloc_alloc] for a section of type
    SHT_NOBITS or of size 0: the 64-bit relocation of the writable
    SHT_NOBITS section of [file_bss] raises [num_dynrel] to 1 under
    pie, and no record is written for it. *)
Lemma dynrel_count_nobits_section :
  ~ (forall cfg lay files errs files' errs' m aerrs m' recs aerrs',
       Forall parsed_file files ->
       is_Some (reldyn_sh_offset lay) ->
       scan_files cfg files errs = Some (files', errs') ->
       copy_buf_files lay files' m aerrs = Some (m', recs, aerrs') ->
       Z.of_nat (length recs) = sum_num_dynrel files').
Proof.
  intros H.
  assert (Hp : Forall parsed_file [file_bss]).
  { repeat constructor; simpl; lia. }
  specialize (H cfg_pie_relax sample_layout [file_bss] [] _ _ ∅ [] _ _ _
                Hp ltac:(by eexists) eq_refl eq_refl).
  vm_compute in H. discriminate H.
Qed.

(** Claim C1, amended.  After [scan_relocations] has run over the
    sections of every file, [num_dynrel] of every file is the number
    of relocations of its SHF_ALLOC sections classified R_DYN or
    R_ABS_DYN.  [copy_buf], run over the sections of the scanned
    files, completes, and [apply_reloc_alloc] stores one record into
    .rela.dyn for each of these relocations that belongs to a section
    with bytes, in the slot the scan reserved for it; the slots of the
    sections of type SHT_NOBITS or of size 0 stay empty.  When every
    SHF_ALLOC section that has relocations has bytes, the records are
    as many as the sum of the [num_dynrel], and each file's records
    fill, in order, the [num_dynrel] slots that follow its
    [reldyn_offset]. *)
Theorem dynrel_count_invariant (cfg : Config) (lay : Layout) (off : Z)
    (files : list ObjectFile) (errs : list Diag) :
  Forall parsed_file files ->
  reldyn_sh_offset lay = Some off ->
  exists files' errs',
    scan_files cfg files errs = Some (files', errs') /\
    Forall (fun f => num_dynrel f = Z.of_nat (file_dyn_count (sections f)))
      files' /\
    forall m aerrs,
      exists m' recs aerrs',
        copy_buf_files lay files' m aerrs = Some (m', recs, aerrs') /\
        recs.*1 = all_written_slots off files' /\
        (Forall (fun f => relocs_have_bytes (sections f)) files ->
         Z.of_nat (length recs) = sum_num_dynrel files' /\
         recs.*1 = all_slots off files').
Proof.
  intros Hp Hoff. revert errs.
  induction files as [|f files IH]; intros errs.
  - exists [], errs. simpl. split; [done |]. split; [constructor |].
    intros. by do 3 eexists.
  - apply Forall_cons_1 in Hp as [[Hzero Hsecs] Hp].
    destruct (scan_sections_spec cfg (sections f) (symbols f) (num_dynrel f)
                errs Hsecs)
      as (secs' & syms' & ndyn' & errs1 & Hscan & Hn & Hl & Hfull & Happ).
    destruct (IH Hp errs1) as (files' & errs' & Hrest & Hall & Happs).
    set (f' := {| symbols := syms'; num_dynrel := ndyn';
                  file_reldyn_offset := file_reldyn_offset f;
                  sections := secs' |}).
    exists (f' :: files'), errs'.
    split; [| split].
    + simpl. unfold scan_file. rewrite Hscan. simpl. rewrite Hrest. done.
    + constructor; [simpl; lia | done].
    + intros m aerrs.
      destruct (Happ lay f' m aerrs off) as (m1 & recs1 & aerrs1 & Hap1 & Hr1);
        [done | done |].
      destruct (Happs m1 aerrs1) as (m' & recs & aerrs' & Hap & Hr & Hsum).
      exists m', (recs1 ++ recs), aerrs'.
      simpl copy_buf_files. rewrite Hap1. simpl. rewrite Hap. simpl.
      split; [done |].
      assert (Hw : recs1.*1
                   = written_slots (off + file_reldyn_offset f') (sections f')).
      { rewrite Hr1. simpl. f_equal. lia. }
      split; [simpl all_written_slots; by rewrite fmap_app, Hw, Hr |].
      intros Hb. apply Forall_cons_1 in Hb as [Hb Hbs].
      destruct (Hsum Hbs) as [Hlen Hslots].
      assert (Hs1 : recs1.*1 = file_slots off f').
      { rewrite Hw. simpl. rewrite (Hfull Hb). unfold file_slots. simpl.
        f_equal. lia. }
      split.
      * rewrite length_app, Nat2Z.inj_add, Hlen. simpl. f_equal.
        rewrite <- (length_fmap fst recs1), Hs1.
        unfold file_slots. rewrite slot_offsets_length. simpl. lia.
      * rewrite fmap_app, Hs1, Hslots. done.
Qed.

(** The amended claim on a link of [file_a] and [file_b], whose
    sections all have bytes: two records for the first file, at
    offsets 1024 and 1048, one for the second, at offset 1072. *)
Lemma dynrel_count_invariant_witness :
  exists files' errs',
    scan_files cfg_pie_relax [file_a; file_b] [] = Some (files', errs') /\
    num_dynrel <$> files' = [2; 1] /\
    exists m' recs aerrs',
      copy_buf_files sample_layout files' ∅ [] = Some (m', recs, aerrs') /\
      Z.of_nat (length recs) = sum_num_dynrel files' /\
      recs.*1 = [1024; 1048; 1072].
Proof.
  assert (Hp : Forall parsed_file [file_a; file_b]).
  { repeat constructor; simpl; lia. }
  assert (Hb : Forall (fun f => relocs_have_bytes (sections f))
                 [file_a; file_b]).
  { repeat constructor; simpl; discriminate. }
  destruct (dynrel_count_invariant cfg_pie_relax sample_layout 1024
              [file_a; file_b] [] Hp eq_refl)
    as (files' & errs' & Hscan & Hall & Happ).
  exists files', errs'. split; [exact Hscan |].
  vm_compute in Hscan. injection Hscan as <- <-.
  split; [reflexivity |].
  destruct (Happ ∅ []) as (m' & recs & aerrs' & Hap & _ & Hsum).
  destruct (Hsum Hb) as [Hlen Hslots].
  exists m', recs, aerrs'.
  split; [exact Hap |]. split; [exact Hlen | exact Hslots].
Defined.

(** ** ICF: the order of the fields of the initial digest *)

(** [hash_i64] appends the eight bytes of the value. *)
Lemma hash_i64_layout v ctx : hash_i64 v ctx = ctx ++ i64_field v.
Proof.
  unfold hash_i64, i64_field, byte_at. f_equal. simpl le_bytes.
  rewrite !Z.div_div by lia. rewrite Z.div_1_r. reflexivity.
Qed.

Local Opaque le_bytes i64_field.

Lemma hash_string_layout s ctx : hash_string s ctx = ctx ++ length_prefixed s.
Proof.
  unfold hash_string, length_prefixed. rewrite hash_i64_layout.
  by rewrite <- app_assoc.
Qed.

Lemma hash_symbol_layout sym ctx :
  hash_symbol sym ctx = ctx ++ symbol_digest sym.
Proof.
  unfold hash_symbol, symbol_digest.
  destruct (sym_frag sym); [| destruct (sym_input_section sym)];
    rewrite ?hash_string_layout, !hash_i64_layout; by rewrite <- ?app_assoc.
Qed.

Lemma hash_eh_relocs_layout rs : forall ctx,
  hash_eh_relocs rs ctx = ctx ++ concat (eh_reloc_layout <$> rs).
Proof.
  induction rs as [|rel rs IH]; intros ctx; simpl.
  - by rewrite app_nil_r.
  - rewrite IH. unfold hash_eh_reloc, eh_reloc_layout.
    rewrite !hash_i64_layout, hash_symbol_layout. by rewrite <- !app_assoc.
Qed.

Lemma hash_fde_layout fde ctx :
  hash_fde fde ctx = (bs ← fde_layout fde; Some (ctx ++ bs)).
Proof.
  unfold hash_fde, fde_layout, substr, substr_from.
  destruct (8 <=? length (fde_contents fde))%nat; simpl; [| done].
  destruct (fde_rels fde) as [|first others] eqn:Hrels; simpl; [done |].
  rewrite hash_eh_relocs_layout, !hash_string_layout.
  rewrite ?hash_i64_layout. rewrite drop_0. by rewrite <- !app_assoc.
Qed.

Lemma hash_fdes_layout fs : forall ctx,
  hash_fdes fs ctx = (bs ← concat_layouts fde_layout fs; Some (ctx ++ bs)).
Proof.
  induction fs as [|fde fs IH]; intros ctx; simpl.
  - by rewrite app_nil_r.
  - rewrite hash_fde_layout. destruct (fde_layout fde) as [a|]; simpl; [| done].
    rewrite IH. destruct (concat_layouts fde_layout fs); simpl; [| done].
    by rewrite <- app_assoc.
Qed.

Lemma count_true_take_S hf i (b : bool) :
  hf !! i = Some b ->
  count_true (take (S i) hf) = (count_true (take i hf) + (if b then 1 else 0))%nat.
Proof.
  revert i. induction hf as [|x hf IH]; intros i Hi; [done |].
  destruct i as [|i]; simpl in *.
  - injection Hi as ->. lia.
  - rewrite (IH i Hi). lia.
Qed.

(** The loop over the relocations, started at index [i] with [ref_idx]
    equal to the number of fragment references before [i]. *)
Lemma hash_rels_layout syms isec : forall rest i ctx,
  hash_rels syms isec rest i (count_true (take i (has_fragments isec))) ctx
  = (bs ← concat_layouts (fun '(j, rel) => rel_layout syms isec j rel)
            (imap (fun j rel => (i + j, rel)%nat) rest);
     Some (ctx ++ bs)).
Proof.
  set (lay := fun '(j, rel) => rel_layout syms isec j rel).
  induction rest as [|rel rest IH]; intros i ctx.
  - simpl. by rewrite app_nil_r.
  - cbn [hash_rels imap concat_layouts]. rewrite Nat.add_0_r.
    assert (Himap : imap ((fun j rel0 => ((i + j)%nat, rel0)) ∘ S) rest
                    = imap (fun j rel0 => ((S i + j)%nat, rel0)) rest).
    { apply imap_ext. intros j x _. simpl. f_equal. lia. }
    rewrite Himap. clear Himap.
    change (lay (i, rel)) with (rel_layout syms isec i rel).
    unfold rel_layout.
    destruct (has_fragments isec !! i) as [hf|] eqn:Hhf; simpl; [| done].
    destruct hf.
    + destruct (rel_fragments isec !! count_true (take i (has_fragments isec)))
        as [ref|]; simpl; [| done].
      replace (S (count_true (take i (has_fragments isec))))
        with (count_true (take (S i) (has_fragments isec)))
        by (rewrite (count_true_take_S _ _ _ Hhf); lia).
      rewrite IH.
      destruct (concat_layouts _ _); simpl; [| done].
      rewrite hash_string_layout. rewrite ?hash_i64_layout.
      by rewrite <- !app_assoc.
    + destruct (syms !! r_sym rel) as [sym|]; simpl; [| done].
      replace (count_true (take i (has_fragments isec)))
        with (count_true (take (S i) (has_fragments isec)))
        by (rewrite (count_true_take_S _ _ _ Hhf); lia).
      rewrite IH.
      destruct (concat_layouts _ _); simpl; [| done].
      rewrite hash_symbol_layout. rewrite ?hash_i64_layout.
      by rewrite <- !app_assoc.
Qed.

Lemma concat_layouts_is_Some {A} (f : A -> option (list Z)) l :
  Forall (fun x => is_Some (f x)) l -> is_Some (concat_layouts f l).
Proof.
  induction 1 as [|x l [a Ha] _ [b Hb]]; simpl; [by eexists |].
  rewrite Ha, Hb. by eexists.
Qed.

Lemma count_true_take_le hf : forall i,
  (count_true (take i hf) + count_true (drop i hf) = count_true hf)%nat.
Proof.
  induction hf as [|b hf IH]; intros i; [by rewrite take_nil, drop_nil |].
  destruct i; simpl; [lia |]. specialize (IH i). lia.
Qed.

Lemma digest_layout_is_Some syms isec :
  digest_ready syms isec -> is_Some (digest_layout syms isec).
Proof.
  intros (Hfdes & Hsyms & Hhf & Hfr). unfold digest_layout.
  destruct (concat_layouts_is_Some fde_layout (fdes isec)) as [fs ->].
  { eapply Forall_impl; [exact Hfdes |]. intros fde [Hlen Hrels].
    unfold fde_layout. rewrite (proj2 (Nat.leb_le _ _) Hlen).
    destruct (fde_rels fde); [done | by eexists]. }
  simpl.
  destruct (concat_layouts_is_Some
              (fun '(i, rel) => rel_layout syms isec i rel)
              (imap pair (rels isec))) as [rs ->]; [| by eexists].
  apply Forall_forall. intros [i rel] Hin.
  apply elem_of_lookup_imap in Hin as (i' & rel' & Heq & Hlk).
  injection Heq as <- <-.
  assert (Hi : (i < length (has_fragments isec))%nat).
  { rewrite Hhf. by eapply lookup_lt_Some. }
  unfold rel_layout.
  destruct (lookup_lt_is_Some_2 _ _ Hi) as [hf Hb]. rewrite Hb. simpl.
  destruct hf.
  - pose proof (count_true_take_le (has_fragments isec) i) as Hc.
    rewrite (drop_S _ _ _ Hb) in Hc. simpl in Hc.
    destruct (lookup_lt_is_Some_2 (rel_fragments isec)
                (count_true (take i (has_fragments isec)))) as [ref ->]; [lia |].
    by eexists.
  - assert (Hs : (r_sym rel < length syms)%nat).
    { eapply Forall_forall in Hsyms; [exact Hsyms |].
      by eapply list_elem_of_lookup_2. }
    destruct (lookup_lt_is_Some_2 _ _ Hs) as [sym ->]. by eexists.
Qed.

(** Claim C3.  The bytes [compute_digest] absorbs are, in this order:
    the section contents, length-prefixed; [sh_flags]; the counts of
    FDEs and of relocations; for each FDE the bytes [0,4) and [8,end)
    of its contents, each length-prefixed, its relocation count and,
    for each of its relocations but the first, the symbol digest,
    type, offset and addend; then for each relocation [r_offset],
    [r_type], [r_addend] and either tag 1, the fragment addend and the
    fragment bytes, or the symbol digest.  Every integer, a length, a
    count and a tag included, takes eight bytes, the least significant
    first.  The two descriptions agree on every section, and the bytes
    exist for every section whose vectors are consistent. *)
Theorem compute_digest_field_order (syms : list Symbol) (isec : InputSection) :
  compute_digest_input syms isec = digest_layout syms isec /\
  (digest_ready syms isec -> is_Some (compute_digest_input syms isec)).
Proof.
  assert (Heq : compute_digest_input syms isec = digest_layout syms isec).
  { unfold compute_digest_input, digest_layout. cbv zeta.
    rewrite hash_fdes_layout.
    destruct (concat_layouts fde_layout (fdes isec)) as [fs|]; simpl; [| done].
    pose proof (hash_rels_layout syms isec (rels isec) 0) as Hr.
    rewrite take_0 in Hr. simpl in Hr. rewrite Hr.
    destruct (concat_layouts _ _) as [rs|]; simpl; [| done].
    rewrite hash_string_layout. rewrite ?hash_i64_layout.
    by rewrite <- !app_assoc. }
  split; [exact Heq |]. rewrite Heq. apply digest_layout_is_Some.
Qed.

Local Transparent le_bytes i64_field.

(** The claim on [text_section], byte by byte: the contents with
    their length; [sh_flags] 6; one FDE and two relocations; the FDE
    without its bytes [4,8), its two relocations counted and the
    second one hashed (tag 3, value 0, type 2, offset 16, addend 4);
    the relocation of a fragment (offset 1, type 10, addend 0, tag 1,
    fragment addend 0, the fragment bytes with their length); the
    relocation of a symbol (offset 6, type 4, addend -4, tag 4,
    value 16). *)
Lemma compute_digest_field_order_witness :
  digest_ready [sym_local; sym_callee] text_section /\
  compute_digest_input [sym_local; sym_callee] text_section
    = Some ([4; 0; 0; 0; 0; 0; 0; 0] ++ [85; 72; 137; 229]
            ++ [6; 0; 0; 0; 0; 0; 0; 0]
            ++ [1; 0; 0; 0; 0; 0; 0; 0]
            ++ [2; 0; 0; 0; 0; 0; 0; 0]
            ++ [4; 0; 0; 0; 0; 0; 0; 0] ++ [20; 0; 0; 0]
            ++ [4; 0; 0; 0; 0; 0; 0; 0] ++ [1; 2; 3; 4]
            ++ [2; 0; 0; 0; 0; 0; 0; 0]
            ++ [3; 0; 0; 0; 0; 0; 0; 0]
            ++ [0; 0; 0; 0; 0; 0; 0; 0]
            ++ [2; 0; 0; 0; 0; 0; 0; 0]
            ++ [16; 0; 0; 0; 0; 0; 0; 0]
            ++ [4; 0; 0; 0; 0; 0; 0; 0]
            ++ [1; 0; 0; 0; 0; 0; 0; 0]
            ++ [10; 0; 0; 0; 0; 0; 0; 0]
            ++ [0; 0; 0; 0; 0; 0; 0; 0]
            ++ [1; 0; 0; 0; 0; 0; 0; 0]
            ++ [0; 0; 0; 0; 0; 0; 0; 0]
            ++ [3; 0; 0; 0; 0; 0; 0; 0] ++ [104; 105; 0]
            ++ [6; 0; 0; 0; 0; 0; 0; 0]
            ++ [4; 0; 0; 0; 0; 0; 0; 0]
            ++ [252; 255; 255; 255; 255; 255; 255; 255]
            ++ [4; 0; 0; 0; 0; 0; 0; 0]
            ++ [16; 0; 0; 0; 0; 0; 0; 0]).
Proof.
  assert (Hr : digest_ready [sym_local; sym_callee] text_section).
  { repeat split; repeat constructor; simpl; try lia; done. }
  split; [exact Hr |].
  destruct (compute_digest_field_order [sym_local; sym_callee] text_section)
    as [Heq Hsome].
  destruct (Hsome Hr) as [bs Hbs]. rewrite Hbs. rewrite Heq in Hbs.
  vm_compute in Hbs. injection Hbs as <-. reflexivity.
Defined.

(** ** ICF: the class count grows until the loop exits *)

Lemma count_where_le p q l :
  (forall i, i ∈ l -> p i = true -> q i = true) ->
  (count_where p l <= count_where q l)%nat.
Proof.
  induction l as [|i l IH]; intros H; simpl; [lia |].
  assert (count_where p l <= count_where q l)%nat
    by (apply IH; intros; apply H; [by right | done]).
  destruct (p i) eqn:Hp; [| lia].
  rewrite (H i (list_elem_of_here _ _) Hp). lia.
Qed.

Lemma count_where_bound p l : (count_where p l <= length l)%nat.
Proof. induction l as [|i l IH]; simpl; [lia |]. destruct (p i); lia. Qed.

Lemma count_num_classes_bound g st :
  (count_num_classes g st <= num_sections g - 1)%nat.
Proof.
  unfold count_num_classes.
  etrans; [apply count_where_bound |]. by rewrite length_seq.
Qed.

Section Propagation.

Variable sha256 : list Z -> list Z.
Variable g : IcfGraph.
Variable m : nat.
Hypothesis sha256_size : forall x, length (sha256 x) = 32%nat.
Hypothesis g_ok : graph_ok g m.

Lemma digest_final_length x : length (digest_final sha256 x) = HASH_SIZE.
Proof.
  unfold digest_final, HASH_SIZE. rewrite length_take, sha256_size. lia.
Qed.

Lemma current_ok st :
  slots_ok st m ->
  length (current st) = m /\ Forall (fun d => length d = HASH_SIZE) (current st).
Proof. intros (? & ? & ? & ?). unfold current. by destruct (slot st). Qed.

Lemma other_ok st :
  slots_ok st m ->
  length (other st) = m /\ Forall (fun d => length d = HASH_SIZE) (other st).
Proof. intros (? & ? & ? & ?). unfold other. by destruct (slot st). Qed.

(** Every node has an input when the vectors are as large as the graph
    expects. *)
Lemma node_input_total cur i :
  length cur = m -> (i < num_sections g)%nat ->
  exists d succ,
    cur !! i = Some d /\ node_input g cur i = Some (d ++ concat succ).
Proof.
  intros Hlen Hi. destruct g_ok as [Hn Hedges].
  destruct (Hedges i Hi) as (b & e & Hb & He & Hrange).
  destruct (lookup_lt_is_Some_2 cur i) as [d Hd]; [lia |].
  assert (Hsucc : is_Some (mapM (fun j => t ← edges g !! j; cur !! t)
                             (seq b (e - b)))).
  { apply mapM_is_Some. apply Forall_forall. intros j Hj.
    apply elem_of_seq in Hj.
    destruct (Hrange j) as (t & Ht & Htm); [lia |].
    unfold compose. rewrite Ht. simpl. apply lookup_lt_is_Some_2. lia. }
  destruct Hsucc as [succ Hs].
  exists d, succ. split; [done |].
  unfold node_input. rewrite Hd. cbn -[Nat.eqb]. rewrite Hb. cbn -[Nat.eqb].
  rewrite He. cbn -[Nat.eqb]. by rewrite Hs.
Qed.

(** A round runs to its end, and leaves both vectors well-sized. *)
Lemma round_total st :
  slots_ok st m ->
  exists st', round sha256 g st = Some st' /\ slots_ok st' m.
Proof.
  intros Hok. destruct (current_ok st Hok) as [Hcl Hcf].
  destruct (other_ok st Hok) as [Hol Hof].
  destruct g_ok as [Hn _].
  assert (Hnew : is_Some (mapM (fun i => digest_final sha256 <$>
                                  node_input g (current st) i)
                            (seq 0 (num_sections g)))).
  { apply mapM_is_Some. apply Forall_forall. intros i Hi.
    apply elem_of_seq in Hi. unfold compose.
    destruct (node_input_total (current st) i) as (d & succ & _ & ->);
      [done | lia |].
    by eexists. }
  destruct Hnew as [new Hnew].
  assert (Hnl : length new = num_sections g).
  { apply length_mapM in Hnew. by rewrite length_seq in Hnew. }
  assert (Hnf : Forall (fun d => length d = HASH_SIZE) new).
  { apply mapM_Some_1 in Hnew. apply Forall_forall. intros d Hd.
    apply list_elem_of_lookup in Hd as [k Hk].
    destruct (Forall2_lookup_r _ _ _ _ _ Hnew Hk) as (i & _ & Hi).
    destruct (node_input g (current st) i); simpl in Hi; [| done].
    injection Hi as <-. apply digest_final_length. }
  assert (Hwl : length (new ++ drop (num_sections g) (other st)) = m).
  { rewrite length_app, length_drop. lia. }
  assert (Hwf : Forall (fun d => length d = HASH_SIZE)
                  (new ++ drop (num_sections g) (other st))).
  { apply Forall_app. split; [done |]. by apply Forall_drop. }
  unfold round. rewrite Hnew. simpl.
  rewrite (proj2 (Nat.leb_le _ _)) by lia.
  destruct Hok as (H0 & H1 & F0 & F1).
  unfold other in *. destruct (slot st); eexists; (split; [reflexivity |]);
    repeat split; simpl; done.
Qed.

(** After a round, node [i] holds the truncated hash of its input. *)
Lemma round_lookup st st' i :
  round sha256 g st = Some st' -> (i < num_sections g)%nat ->
  exists x, node_input g (current st) i = Some x /\
            current st' !! i = Some (digest_final sha256 x).
Proof.
  unfold round. intros Hr Hi.
  destruct (mapM _ _) as [new|] eqn:Hnew; simpl in Hr; [| done].
  destruct (num_sections g <=? length (other st))%nat; [| done].
  assert (Hnl : length new = num_sections g).
  { apply length_mapM in Hnew. by rewrite length_seq in Hnew. }
  apply mapM_Some_1 in Hnew.
  assert (Hsi : seq 0 (num_sections g) !! i = Some i)
    by (by apply lookup_seq_lt).
  destruct (Forall2_lookup_l _ _ _ _ _ Hnew Hsi) as (d & Hd & Hx).
  destruct (node_input g (current st) i) as [x|]; simpl in Hx; [| done].
  injection Hx as <-. exists x. split; [done |].
  injection Hr as <-. unfold current.
  destruct (slot st); simpl; by rewrite lookup_app_l by lia.
Qed.

(** The number of classes does not decrease in a collision-free round:
    two adjacent nodes that get the same new digest had inputs that
    start with the same old digest. *)
Lemma round_monotone st st' :
  slots_ok st m ->
  collision_free sha256 g st ->
  round sha256 g st = Some st' ->
  (count_num_classes g st <= count_num_classes g st')%nat.
Proof.
  intros Hok Hnc Hr. destruct (current_ok st Hok) as [Hcl Hcf].
  unfold count_num_classes. apply count_where_le. intros i Hi Hdiff.
  apply elem_of_seq in Hi. unfold differ in *.
  apply bool_decide_eq_true in Hdiff. apply bool_decide_eq_true.
  intros Heq. apply Hdiff.
  destruct (round_lookup st st' i Hr) as (x & Hx & Hxi); [lia |].
  destruct (round_lookup st st' (S i) Hr) as (y & Hy & Hyi); [lia |].
  rewrite Hxi, Hyi in Heq. injection Heq as Heq.
  assert (Hxy : x = y) by (eapply (Hnc i (S i)); [lia | lia | done..]).
  destruct (node_input_total (current st) i) as (d & s & Hd & Hdi); [done | lia |].
  destruct (node_input_total (current st) (S i)) as (d' & s' & Hd' & Hdi');
    [done | lia |].
  rewrite Hx in Hdi. rewrite Hy in Hdi'.
  injection Hdi as ->. injection Hdi' as Hdd. rewrite Hdd in Hxy.
  apply app_inj_1 in Hxy as [-> _]; [by rewrite Hd, Hd' |].
  rewrite Forall_forall in Hcf.
  rewrite (Hcf d), (Hcf d'); [done | |]; by eapply list_elem_of_lookup_2.
Qed.

Lemma rounds_ok k : forall st st',
  slots_ok st m -> rounds sha256 g k st = Some st' -> slots_ok st' m.
Proof.
  induction k as [|k IH]; intros st st' Hok Hr; simpl in Hr.
  - by injection Hr as <-.
  - destruct (round_total st Hok) as (st1 & Hr1 & Hok1).
    rewrite Hr1 in Hr. simpl in Hr. by eapply IH.
Qed.

Lemma rounds_S_r k : forall st,
  rounds sha256 g (S k) st = rounds sha256 g k st ≫= round sha256 g.
Proof.
  induction k as [|k IH]; intros st.
  - simpl. by destruct (round sha256 g st).
  - change (rounds sha256 g (S (S k)) st)
      with (round sha256 g st ≫= rounds sha256 g (S k)).
    change (rounds sha256 g (S k) st)
      with (round sha256 g st ≫= rounds sha256 g k).
    destruct (round sha256 g st) as [st1|]; [| done].
    exact (IH st1).
Qed.

(** From any state the loop exits within [b + 1] rounds when at most
    [b] classes are still missing; until then every round adds a
    class. *)
Lemma converge_from : forall b st,
  slots_ok st m ->
  (num_sections g - 1 - count_num_classes g st <= b)%nat ->
  (forall j stj, (j <= b)%nat -> rounds sha256 g j st = Some stj ->
     collision_free sha256 g stj) ->
  exists k stk,
    (1 <= k <= S b)%nat /\
    rounds sha256 g k st = Some stk /\
    (forall fuel, (k <= fuel)%nat ->
       propagate sha256 g fuel st (count_num_classes g st) = Some stk) /\
    (forall j sa sb, (S j < k)%nat ->
       rounds sha256 g j st = Some sa -> rounds sha256 g (S j) st = Some sb ->
       (count_num_classes g sa < count_num_classes g sb)%nat) /\
    (exists sp, rounds sha256 g (k - 1) st = Some sp /\
       count_num_classes g stk = count_num_classes g sp).
Proof.
  induction b as [|b IH]; intros st Hok Hb Hnc.
  - destruct (round_total st Hok) as (st1 & Hr1 & Hok1).
    pose proof (round_monotone st st1 Hok (Hnc 0%nat st (le_n _) eq_refl) Hr1) as Hmono.
    pose proof (count_num_classes_bound g st1) as Hbound.
    assert (Heq : count_num_classes g st1 = count_num_classes g st) by lia.
    exists 1%nat, st1. split; [lia |]. split; [simpl; by rewrite Hr1 |].
    split; [| split].
    + intros [|fuel] Hf; [lia |]. simpl. rewrite Hr1. simpl.
      by rewrite Heq, Nat.eqb_refl.
    + intros j sa sb Hj. lia.
    + exists st. split; [done | done].
  - destruct (round_total st Hok) as (st1 & Hr1 & Hok1).
    pose proof (round_monotone st st1 Hok (Hnc 0%nat st ltac:(lia) eq_refl) Hr1)
      as Hmono.
    pose proof (count_num_classes_bound g st1) as Hbound.
    destruct (decide (count_num_classes g st1 = count_num_classes g st))
      as [Heq|Hne].
    + exists 1%nat, st1. split; [lia |]. split; [simpl; by rewrite Hr1 |].
      split; [| split].
      * intros [|fuel] Hf; [lia |]. simpl. rewrite Hr1. simpl.
        by rewrite Heq, Nat.eqb_refl.
      * intros j sa sb Hj. lia.
      * exists st. split; [done | done].
    + destruct (IH st1 Hok1) as (k & stk & Hk & Hrk & Hprop & Hstrict & sp & Hsp & Hcs).
      { lia. }
      { intros j stj Hj Hrj. apply (Hnc (S j)); [lia |].
        simpl. by rewrite Hr1. }
      exists (S k), stk. split; [lia |].
      split; [simpl; by rewrite Hr1 |]. split; [| split].
      * intros [|fuel] Hf; [lia |]. simpl. rewrite Hr1. simpl.
        rewrite (proj2 (Nat.eqb_neq _ _) Hne). apply Hprop. lia.
      * intros j sa sb Hj Ha Hb'. destruct j as [|j].
        -- simpl in Ha, Hb'. injection Ha as <-. rewrite Hr1 in Hb'.
           simpl in Hb'. injection Hb' as <-. lia.
        -- simpl in Ha. rewrite Hr1 in Ha. simpl in Ha.
           change (rounds sha256 g (S (S j)) st)
             with (round sha256 g st ≫= rounds sha256 g (S j)) in Hb'.
           rewrite Hr1 in Hb'. simpl in Hb'.
           apply (Hstrict j sa sb); [lia | done | done].
      * exists sp. split; [| done].
        replace (S k - 1)%nat with (S (k - 1)) by lia.
        simpl. by rewrite Hr1.
Qed.

End Propagation.

(** Claim C4.  Assume the truncated SHA-256 has no collision among the
    inputs hashed in the rounds.  Then [num_classes] never decreases
    from one round to the next, and the loop terminates: it exits
    after the first round that leaves [num_classes] unchanged, every
    earlier round having raised it, and that happens within
    [max 1 sections.size()] rounds. *)
Theorem propagation_converges (sha256 : list Z -> list Z) (g : IcfGraph)
    (ds : list (list Z)) :
  (forall x, length (sha256 x) = 32%nat) ->
  graph_ok g (length ds) ->
  Forall (fun d => length d = HASH_SIZE) ds ->
  let st0 := initial_slots ds in
  let bound := (1 `max` num_sections g)%nat in
  (forall j stj, (j < bound)%nat -> rounds sha256 g j st0 = Some stj ->
     collision_free sha256 g stj) ->
  (forall j sa sb, (j < bound)%nat ->
     rounds sha256 g j st0 = Some sa -> rounds sha256 g (S j) st0 = Some sb ->
     (count_num_classes g sa <= count_num_classes g sb)%nat) /\
  exists k stk,
    (1 <= k <= bound)%nat /\
    rounds sha256 g k st0 = Some stk /\
    (forall fuel, (k <= fuel)%nat ->
       propagate sha256 g fuel st0 (count_num_classes g st0) = Some stk) /\
    (forall j sa sb, (S j < k)%nat ->
       rounds sha256 g j st0 = Some sa -> rounds sha256 g (S j) st0 = Some sb ->
       (count_num_classes g sa < count_num_classes g sb)%nat) /\
    (exists sp, rounds sha256 g (k - 1) st0 = Some sp /\
       count_num_classes g stk = count_num_classes g sp).
Proof.
  intros Hsha Hg Hds st0 bound Hnc.
  assert (Hok : slots_ok st0 (length ds)) by (repeat split; done).
  split.
  - intros j sa sb Hj Ha Hb.
    rewrite rounds_S_r, Ha in Hb. simpl in Hb.
    eapply (round_monotone sha256 g (length ds)); try done.
    + by eapply rounds_ok.
    + by eapply Hnc.
  - destruct (converge_from sha256 g (length ds) Hsha Hg (bound - 1) st0 Hok)
      as (k & stk & Hk & Hrest).
    { pose proof (count_num_classes_bound g st0). lia. }
    { intros j stj Hj. apply Hnc. lia. }
    exists k, stk. split; [lia | done].
Qed.

Lemma poly_hash_size x : length (poly_hash x) = 32%nat.
Proof. apply le_bytes_length. Qed.

(** The claim on [two_callers]: the two sections start in one class,
    the first round separates them, the second changes nothing, and
    the loop exits there. *)
Lemma propagation_converges_witness :
  exists stk,
    propagate poly_hash two_callers 2 (initial_slots two_callers_digests) 0
      = Some stk /\
    count_num_classes two_callers stk = 1%nat.
Proof.
  assert (Hg : graph_ok two_callers (length two_callers_digests)).
  { split; [simpl; lia |]. intros i Hi.
    destruct i as [|[|i]]; [| | simpl in Hi; lia].
    - exists 0%nat, 1%nat. repeat split. intros j Hj.
      assert (j = 0%nat) as -> by lia. exists 2%nat. split; [done | simpl; lia].
    - exists 1%nat, 2%nat. repeat split. intros j Hj.
      assert (j = 1%nat) as -> by lia. exists 3%nat. split; [done | simpl; lia]. }
  assert (Hds : Forall (fun d => length d = HASH_SIZE) two_callers_digests).
  { repeat constructor. }
  assert (Hnc : forall j stj, (j < 1 `max` num_sections two_callers)%nat ->
            rounds poly_hash two_callers j (initial_slots two_callers_digests)
              = Some stj ->
            collision_free poly_hash two_callers stj).
  { intros j stj Hj Hr i i' x y Hi Hi' Hx Hy Heq.
    destruct j as [|[|j]]; [| | simpl in Hj; lia];
      vm_compute in Hr; injection Hr as <-;
      (destruct i as [|[|i]]; [| | simpl in Hi; lia]);
      (destruct i' as [|[|i']]; [| | simpl in Hi'; lia]);
      vm_compute in Hx, Hy; injection Hx as <-; injection Hy as <-;
      try reflexivity; vm_compute in Heq; discriminate. }
  destruct (propagation_converges poly_hash two_callers two_callers_digests
              poly_hash_size Hg Hds Hnc)
    as (_ & k & stk & Hk & Hrk & Hprop & _ & _).
  exists stk. split.
  - apply (Hprop 2%nat). simpl in Hk. lia.
  - specialize (Hprop 2%nat ltac:(simpl in Hk; lia)).
    vm_compute in Hprop. injection Hprop as <-. reflexivity.
Defined.

(** ** ICF: leaders *)

Lemma insert_entry_perm info e l : insert_entry info e l ≡ₚ e :: l.
Proof.
  induction l as [|x l IH]; simpl; [done |].
  destruct (entry_lt info e x); [done |].
  rewrite IH. apply Permutation_swap.
Qed.

Lemma sort_entries_perm info l : sort_entries info l ≡ₚ l.
Proof.
  induction l as [|e l IH]; simpl; [done |].
  rewrite insert_entry_perm. by rewrite IH.
Qed.

Lemma digest_lt_asym a : forall b,
  digest_lt a b = true -> digest_lt b a = false.
Proof.
  induction a as [|x a IH]; intros [|y b]; simpl; try done.
  destruct (Z.ltb_spec x y), (Z.ltb_spec y x); try done; try lia.
  apply IH.
Qed.

Lemma entry_lt_asym info a b :
  entry_lt info a b = true -> entry_lt info b a = false.
Proof.
  unfold entry_lt. repeat case_bool_decide; try congruence.
  - apply digest_lt_asym.
  - intros Hlt%Z.ltb_lt. apply Z.ltb_ge. lia.
Qed.

Lemma insert_entry_hd info x e l :
  HdRel (entry_le info) x l -> entry_le info x e ->
  HdRel (entry_le info) x (insert_entry info e l).
Proof.
  intros Hl He. destruct l as [|y l]; simpl; [by constructor |].
  destruct (entry_lt info e y); constructor; [done |].
  by inversion Hl.
Qed.

(** The model of the sort does sort: no entry is followed by a smaller
    one. *)
Lemma sort_entries_sorted info l :
  Sorted (entry_le info) (sort_entries info l).
Proof.
  induction l as [|e l IH]; simpl; [constructor |].
  induction IH as [|x l' Hs IHs Hhd]; simpl; [by repeat constructor |].
  destruct (entry_lt info e x) eqn:E.
  - constructor; [by constructor |]. constructor. by apply entry_lt_asym.
  - constructor; [done |]. by apply insert_entry_hd.
Qed.

Lemma run_prefix_lookup d rest : forall k e,
  run_prefix d rest !! k = Some e <->
  rest !! k = Some e /\
  forall k', (k' <= k)%nat -> ent_digest <$> rest !! k' = Some d.
Proof.
  induction rest as [|x rest IH]; intros k e; simpl.
  - split; [done | by intros [? _]].
  - case_bool_decide as Hd.
    + destruct k as [|k]; simpl.
      * split.
        -- intros [= <-]. split; [done |]. intros k' Hk'.
           assert (k' = 0%nat) as -> by lia. simpl. by rewrite Hd.
        -- by intros [? _].
      * rewrite IH. split.
        -- intros [Hr Hall]. split; [done |]. intros [|k'] Hk'; simpl.
           ++ by rewrite Hd.
           ++ apply Hall. lia.
        -- intros [Hr Hall]. split; [done |]. intros k' Hk'.
           apply (Hall (S k')). lia.
    + split; [done |]. intros [_ Hall].
      specialize (Hall 0%nat ltac:(lia)). simpl in Hall. congruence.
Qed.

Lemma set_leader_while_lookup d leader rest : forall ldr s,
  set_leader_while d leader rest ldr !! s =
    if decide (s ∈ ent_isec <$> run_prefix d rest) then Some leader
    else ldr !! s.
Proof.
  induction rest as [|e rest IH]; intros ldr s;
    cbn [set_leader_while run_prefix].
  - case_decide as Hin; [by apply elem_of_nil in Hin | done].
  - case_bool_decide as Hd.
    + rewrite IH, fmap_cons. repeat case_decide; try done.
      * exfalso. match goal with H : ¬ _ |- _ => apply H end. by right.
      * match goal with H : _ ∈ _ :: _ |- _ =>
          apply elem_of_cons in H as [->|?]; [| done] end.
        by rewrite lookup_insert_eq.
      * rewrite lookup_insert_ne; [done |]. intros <-.
        match goal with H : ¬ _ ∈ _ :: _ |- _ => apply H end. by left.
    + case_decide as Hin; [by apply elem_of_nil in Hin | done].
Qed.

Section Leaders.

Variable entries : list Entry.
Hypothesis sections_distinct : NoDup (ent_isec <$> entries).

Lemma same_section_same_index j j' e e' :
  entries !! j = Some e -> entries !! j' = Some e' ->
  ent_isec e = ent_isec e' -> j = j'.
Proof.
  intros Hj Hj' Heq.
  eapply (NoDup_lookup _ _ _ (ent_isec e) sections_distinct);
    rewrite list_lookup_fmap.
  - by rewrite Hj.
  - rewrite Hj'. simpl. by rewrite Heq.
Qed.

(** A run has one first element. *)
Lemma run_start_unique i i' j :
  run_start entries i -> run_start entries i' ->
  in_run entries i j -> in_run entries i' j -> i = i'.
Proof.
  assert (Hlt : forall a b, run_start entries b -> in_run entries a j ->
            in_run entries b j -> (a < b)%nat -> False).
  { intros a b [_ [->|Hne]] [Ha Hra] [Hb Hrb] Hab; [lia |].
    apply Hne. rewrite (Hra (b - 1)%nat) by lia. rewrite (Hra b) by lia. done. }
  intros Hi Hi' Hr Hr'.
  destruct (lt_eq_lt_dec i i') as [[Hlt'|Heq]|Hgt]; [| done |].
  - exfalso. by eapply (Hlt i i').
  - exfalso. by eapply (Hlt i' i).
Qed.

(** The test of the loop body is the test for a first element. *)
Lemma elect_test_run_start i ei :
  entries !! i = Some ei ->
  (i =? 0)%nat
  || bool_decide (ent_digest <$> entries !! (i - 1)%nat <> Some (ent_digest ei))
  = true <-> run_start entries i.
Proof.
  intros Hi. unfold run_start, digest_at. rewrite Hi. simpl.
  rewrite orb_true_iff, Nat.eqb_eq, bool_decide_eq_true.
  pose proof (lookup_lt_Some _ _ _ Hi). tauto.
Qed.

(** The sections written by the loop body at a first element [i] are
    the other members of its run. *)
Lemma run_prefix_in_run i ei s :
  entries !! i = Some ei ->
  s ∈ ent_isec <$> run_prefix (ent_digest ei) (drop (S i) entries) <->
  exists j ej, (i < j)%nat /\ in_run entries i j /\
    entries !! j = Some ej /\ s = ent_isec ej.
Proof.
  intros Hi. rewrite list_elem_of_fmap. split.
  - intros (ej & -> & Hin). apply list_elem_of_lookup in Hin as [k Hk].
    apply run_prefix_lookup in Hk as [Hk Hall]. rewrite lookup_drop in Hk.
    exists (S i + k)%nat, ej. split; [lia |]. split; [| done].
    split; [split; [lia | by eapply lookup_lt_Some] |].
    intros k' Hk'. unfold digest_at. rewrite Hi. simpl.
    destruct (decide (k' = i)) as [->|Hne]; [by rewrite Hi |].
    specialize (Hall (k' - S i)%nat ltac:(lia)).
    rewrite lookup_drop in Hall.
    by replace (S i + (k' - S i))%nat with k' in Hall by lia.
  - intros (j & ej & Hij & [Hj Hrun] & Hej & ->).
    exists ej. split; [done |]. apply list_elem_of_lookup.
    exists (j - S i)%nat. apply run_prefix_lookup. rewrite !lookup_drop.
    replace (S i + (j - S i))%nat with j by lia. split; [done |].
    intros k' Hk'. rewrite lookup_drop.
    specialize (Hrun (S i + k')%nat ltac:(lia)).
    unfold digest_at in Hrun. by rewrite Hi in Hrun.
Qed.

(** After the iterations for the indices below [t], a section has a
    leader exactly when it follows, in its run, a first element below
    [t]; the leader is that first element. *)
Lemma elect_prefix t :
  (t <= length entries - 1)%nat ->
  forall s l,
    foldl (elect_step entries) ∅ (seq 0 t) !! s = Some l <->
    exists i j ei ej,
      (i < t)%nat /\ run_start entries i /\ (i < j)%nat /\
      in_run entries i j /\ entries !! i = Some ei /\
      entries !! j = Some ej /\ s = ent_isec ej /\ l = ent_isec ei.
Proof.
  induction t as [|t IH]; intros Ht s l.
  - simpl. rewrite lookup_empty. split; [done |].
    intros (i & _ & _ & _ & Hi & _). lia.
  - rewrite seq_S, foldl_app. simpl.
    set (h := foldl (elect_step entries) ∅ (seq 0 t)) in *.
    specialize (IH ltac:(lia)).
    destruct (lookup_lt_is_Some_2 entries t) as [et Het]; [lia |].
    unfold elect_step. rewrite Het.
    destruct ((t =? 0)%nat || bool_decide _) eqn:Htest.
    + apply (elect_test_run_start t et Het) in Htest.
      rewrite set_leader_while_lookup.
      destruct (decide (s ∈ _)) as [Hin|Hnin].
      * apply (run_prefix_in_run t et s Het) in Hin
          as (j & ej & Htj & Hrun & Hej & ->).
        split.
        -- intros [= <-]. exists t, j, et, ej.
           repeat (split; [first [done | lia] |]); first [done | lia].
        -- intros (i & j' & ei & ej' & Hi & Hsi & Hij & Hrun' & Hei & Hej' & Hs & ->).
           assert (j' = j) as -> by (by eapply same_section_same_index).
           assert (i = t) as -> by (by eapply run_start_unique).
           congruence.
      * rewrite IH. split.
        -- intros (i & j & ei & ej & Hi & Hrest).
           exists i, j, ei, ej. split; [lia | done].
        -- intros (i & j & ei & ej & Hi & Hsi & Hij & Hrun & Hei & Hej & Hs & Hl).
           destruct (decide (i = t)) as [->|Hne].
           ++ exfalso. apply Hnin. apply (run_prefix_in_run t et s Het).
              by exists j, ej.
           ++ exists i, j, ei, ej.
              repeat (split; [first [done | lia] |]); first [done | lia].
    + assert (Hns : ~ run_start entries t).
      { intros Hs. apply (elect_test_run_start t et Het) in Hs. congruence. }
      rewrite IH. split.
      * intros (i & j & ei & ej & Hi & Hrest).
        exists i, j, ei, ej. split; [lia | done].
      * intros (i & j & ei & ej & Hi & Hsi & Hrest).
        destruct (decide (i = t)) as [->|Hne]; [done |].
        exists i, j, ei, ej. split; [lia | done].
Qed.

(** The leaders after the whole loop. *)
Lemma elect_leaders_spec s l :
  elect_leaders entries ∅ !! s = Some l <->
  exists i j ei ej,
    run_start entries i /\ (i < j)%nat /\ in_run entries i j /\
    entries !! i = Some ei /\ entries !! j = Some ej /\
    s = ent_isec ej /\ l = ent_isec ei.
Proof.
  unfold elect_leaders. rewrite elect_prefix by done. split.
  - intros (i & j & ei & ej & _ & Hrest). by exists i, j, ei, ej.
  - intros (i & j & ei & ej & Hsi & Hij & Hrun & Hrest).
    exists i, j, ei, ej. split; [| done]. destruct Hrun as [Hj _]. lia.
Qed.

(** A first element has no leader. *)
Lemma run_start_no_leader i ei :
  run_start entries i -> entries !! i = Some ei ->
  elect_leaders entries ∅ !! ent_isec ei = None.
Proof.
  intros Hsi Hei. destruct (elect_leaders entries ∅ !! ent_isec ei) as [l|] eqn:Hl;
    [| done].
  exfalso. apply elect_leaders_spec in Hl
    as (i' & j & ei' & ej & Hsi' & Hij & [Hj Hrun] & Hei' & Hej & Hs & ->).
  assert (i = j) as <- by (by eapply same_section_same_index).
  destruct Hsi as [_ [->|Hne]]; [lia |].
  apply Hne. rewrite (Hrun (i - 1)%nat) by lia. by rewrite (Hrun i) by lia.
Qed.

Lemma leader_has_no_leader s l :
  elect_leaders entries ∅ !! s = Some l ->
  elect_leaders entries ∅ !! l = None.
Proof.
  intros (i & j & ei & ej & Hsi & _ & _ & Hei & _ & _ & ->)%elect_leaders_spec.
  by eapply run_start_no_leader.
Qed.

End Leaders.

(** Redirecting a symbol leaves it on a section without leader, and
    does not disturb the symbols already there. *)
Lemma redirect_symbol_spec (ldr : gmap nat nat) store p :
  (forall s l, ldr !! s = Some l -> ldr !! l = None) ->
  settled ldr (redirect_symbol ldr store p) p /\
  forall q, settled ldr store q -> settled ldr (redirect_symbol ldr store p) q.
Proof.
  intros Hchain. unfold redirect_symbol, settled.
  destruct (store !! p) as [sym|] eqn:Hp.
  2: { split; [| done]. intros sym' s Hq. congruence. }
  destruct (sym_input_section sym) as [s|] eqn:Hs.
  2: { split; [| done]. intros sym' s' Hq Hs'. congruence. }
  destruct (ldr !! s) as [l|] eqn:Hl.
  2: { split; [| done]. intros sym' s' Hq Hs'. congruence. }
  split.
  - intros sym' s'. rewrite lookup_insert_eq. intros [= <-]. simpl.
    intros [= <-]. by eapply Hchain.
  - intros q Hq sym' s'. destruct (decide (q = p)) as [->|Hne].
    + rewrite lookup_insert_eq. intros [= <-]. simpl. intros [= <-].
      by eapply Hchain.
    + rewrite lookup_insert_ne by done. apply Hq.
Qed.

Lemma redirect_file_spec (ldr : gmap nat nat) table :
  (forall s l, ldr !! s = Some l -> ldr !! l = None) ->
  forall store,
  (forall q, q ∈ table -> settled ldr (redirect_file ldr store table) q) /\
  forall q, settled ldr store q -> settled ldr (redirect_file ldr store table) q.
Proof.
  intros Hchain. unfold redirect_file.
  induction table as [|p table IH]; intros store; simpl.
  - split; [by intros q ?%elem_of_nil | done].
  - destruct (redirect_symbol_spec ldr store p Hchain) as [Hp Hkeep].
    destruct (IH (redirect_symbol ldr store p)) as [Hin Hkeep'].
    split.
    + intros q [->|Hq]%elem_of_cons; [by apply Hkeep' | by apply Hin].
    + intros q Hq. apply Hkeep'. by apply Hkeep.
Qed.

Lemma redirect_symbols_spec (ldr : gmap nat nat) tables :
  (forall s l, ldr !! s = Some l -> ldr !! l = None) ->
  forall store,
  (forall table q, table ∈ tables -> q ∈ table ->
     settled ldr (redirect_symbols ldr store tables) q) /\
  forall q, settled ldr store q ->
            settled ldr (redirect_symbols ldr store tables) q.
Proof.
  intros Hchain. unfold redirect_symbols.
  induction tables as [|t tables IH]; intros store; simpl.
  - split; [by intros t q ?%elem_of_nil | done].
  - destruct (redirect_file_spec ldr t Hchain store) as [Ht Hkeep].
    destruct (IH (redirect_file ldr store t)) as [Hin Hkeep'].
    split.
    + intros t' q [->|Ht']%elem_of_cons Hq.
      * apply Hkeep'. by apply Ht.
      * by eapply Hin.
    + intros q Hq. apply Hkeep'. by apply Hkeep.
Qed.

(** ** The sorted order *)

Lemma i64_small v : 0 <= v < 2 ^ 63 -> i64 v = v.
Proof.
  intros Hv. unfold i64, sext. change (64 - 1) with 63.
  rewrite Z.mod_small by (change (2 ^ 64) with (2 * 2 ^ 63); lia).
  by rewrite (proj2 (Z.ltb_lt _ _)) by lia.
Qed.

(** Within the ranges [get_priority] is the number whose high half is
    the priority and whose low half is the index. *)
Lemma get_priority_split p i :
  0 <= p < 2 ^ 31 -> 0 <= i < 2 ^ 32 -> get_priority p i = p * 2 ^ 32 + i.
Proof.
  intros Hp Hi. unfold get_priority.
  rewrite (i64_small p)
    by (split; [lia |]; apply Z.lt_trans with (2 ^ 31); [lia | done]).
  assert (Hadd : Z.lor (Z.shiftl p 32) i = p * 2 ^ 32 + i).
  { rewrite Z.shiftl_mul_pow2 by lia.
    symmetry. apply Z.add_nocarry_lor. apply Z.bits_inj'. intros n Hn.
    rewrite Z.land_spec, Z.bits_0.
    destruct (Z.lt_ge_cases n 32) as [Hlt|Hge].
    - rewrite Z.mul_pow2_bits_low by lia. done.
    - rewrite (Z.bits_above_log2 i n), andb_false_r; [done | lia |].
      destruct (Z.eq_dec i 0) as [->|Hnz]; [simpl; lia |].
      apply Z.log2_lt_pow2; [lia |].
      apply Z.lt_le_trans with (2 ^ 32); [lia |].
      apply Z.pow_le_mono_r; lia. }
  rewrite Hadd. apply i64_small.
  change (2 ^ 31) with 2147483648 in Hp.
  change (2 ^ 32) with 4294967296 in *.
  change (2 ^ 63) with 9223372036854775808. lia.
Qed.

(** Beyond the range the shift reaches the sign bit: a file with the
    priority 2^31 sorts before a file with the priority 0. *)
Lemma get_priority_wraps : get_priority (2 ^ 31) 0 < get_priority 0 0.
Proof. vm_compute. reflexivity. Qed.

Lemma digest_lt_lex a : forall b, digest_lt a b = true <-> lex_lt a b.
Proof.
  induction a as [|x a IH]; intros [|y b]; simpl.
  - split; [done | inversion 1].
  - split; [constructor | done].
  - split; [done | inversion 1].
  - destruct (Z.ltb_spec x y) as [Hxy|Hxy].
    + split; [by constructor | done].
    + destruct (Z.ltb_spec y x) as [Hyx|Hyx].
      * split; [done |]. inversion 1; subst; lia.
      * assert (x = y) as -> by lia. rewrite IH. split.
        -- by constructor.
        -- inversion 1; subst; [lia | done].
Qed.

Lemma digest_lt_total a : forall b,
  digest_lt a b = false -> digest_lt b a = false -> a = b.
Proof.
  induction a as [|x a IH]; intros [|y b]; simpl; try done.
  destruct (Z.ltb_spec x y), (Z.ltb_spec y x); try done; try lia.
  intros Hab Hba. assert (x = y) as -> by lia. f_equal. by apply IH.
Qed.

Lemma digest_lt_trans a : forall b c,
  digest_lt a b = true -> digest_lt b c = true -> digest_lt a c = true.
Proof.
  induction a as [|x a IH]; intros [|y b] [|z c]; simpl; try done.
  destruct (Z.ltb_spec x y), (Z.ltb_spec y x), (Z.ltb_spec y z),
    (Z.ltb_spec z y), (Z.ltb_spec x z), (Z.ltb_spec z x);
    try done; try lia.
  apply IH.
Qed.

Lemma digest_lt_irrefl a : digest_lt a a = false.
Proof.
  destruct (digest_lt a a) eqn:E; [| done].
  by rewrite (digest_lt_asym a a E) in E.
Qed.

Section Order.

Variable info : nat -> Z * Z.

Lemma entry_le_spec a b :
  entry_le info a b <->
  digest_lt (ent_digest a) (ent_digest b) = true \/
  (ent_digest a = ent_digest b /\ entry_priority info a <= entry_priority info b).
Proof.
  unfold entry_le, entry_lt, entry_priority. case_bool_decide as Hd.
  - split.
    + intros Hba. left.
      destruct (digest_lt (ent_digest a) (ent_digest b)) eqn:Hab; [done |].
      exfalso. apply Hd. symmetry. by apply digest_lt_total.
    + intros [Hab|[Heq _]]; [by apply digest_lt_asym | congruence].
  - rewrite Z.ltb_ge. split.
    + intros Hp. right. by split.
    + intros [Hab|[_ Hp]]; [| done].
      rewrite Hd, digest_lt_irrefl in Hab. done.
Qed.

Lemma entry_le_trans : Transitive (entry_le info).
Proof.
  intros a b c. rewrite !entry_le_spec.
  intros [Hab|[Hab Hpab]] [Hbc|[Hbc Hpbc]].
  - left. by eapply digest_lt_trans.
  - left. by rewrite <- Hbc.
  - left. by rewrite Hab.
  - right. split; [congruence | lia].
Qed.

Lemma strongly_sorted_lookup (l : list Entry) :
  StronglySorted (entry_le info) l ->
  forall i j x y, (i < j)%nat -> l !! i = Some x -> l !! j = Some y ->
    entry_le info x y.
Proof.
  induction 1 as [|a l _ IH Hall]; intros i j x y Hij Hi Hj; [done |].
  destruct j as [|j]; [lia |]. simpl in Hj. destruct i as [|i]; simpl in Hi.
  - injection Hi as <-. rewrite Forall_forall in Hall.
    apply Hall. by eapply list_elem_of_lookup_2.
  - apply (IH i j); [lia | done | done].
Qed.

Lemma sorted_lookup_le l i j x y :
  Sorted (entry_le info) l ->
  (i <= j)%nat -> l !! i = Some x -> l !! j = Some y ->
  entry_le info x y.
Proof.
  intros Hs Hij Hi Hj. destruct (decide (i = j)) as [->|Hne].
  - rewrite Hi in Hj. injection Hj as <-. apply entry_le_spec. right.
    split; [done | lia].
  - apply (strongly_sorted_lookup l) with i j; [| lia | done | done].
    apply Sorted_StronglySorted; [apply entry_le_trans | done].
Qed.

(** In a sorted vector the entries with one digest stand together,
    and the first of them has the lowest priority. *)
Lemma sorted_run l i k ei ek :
  Sorted (entry_le info) l ->
  run_start l i -> l !! i = Some ei -> l !! k = Some ek ->
  ent_digest ek = ent_digest ei ->
  (i <= k)%nat /\ in_run l i k /\ entry_priority info ei <= entry_priority info ek.
Proof.
  intros Hs [Hi Hstart] Hei Hek Hd.
  assert (Hik : (i <= k)%nat).
  { destruct (le_lt_dec i k) as [|Hlt]; [done |]. exfalso.
    destruct Hstart as [->|Hne]; [lia |].
    destruct (lookup_lt_is_Some_2 l (i - 1)) as [ep Hep]; [lia |].
    apply Hne. unfold digest_at. rewrite Hep, Hei. simpl. f_equal.
    pose proof (sorted_lookup_le l k (i - 1) ek ep Hs ltac:(lia) Hek Hep) as H1.
    pose proof (sorted_lookup_le l (i - 1) i ep ei Hs ltac:(lia) Hep Hei) as H2.
    apply entry_le_spec in H1, H2. rewrite Hd in H1.
    destruct H1 as [H1|[H1 _]]; [| done].
    destruct H2 as [H2|[H2 _]]; [| done].
    by rewrite (digest_lt_asym _ _ H1) in H2. }
  split; [done |].
  pose proof (lookup_lt_Some _ _ _ Hek) as Hk.
  split; [split; [lia |] |].
  - intros t Ht. unfold digest_at. rewrite Hei. simpl.
    destruct (lookup_lt_is_Some_2 l t) as [et Het]; [lia |].
    rewrite Het. simpl. f_equal.
    pose proof (sorted_lookup_le l i t ei et Hs ltac:(lia) Hei Het) as H1.
    pose proof (sorted_lookup_le l t k et ek Hs ltac:(lia) Het Hek) as H2.
    apply entry_le_spec in H1, H2. rewrite Hd in H2.
    destruct H1 as [H1|[H1 _]]; [| done].
    destruct H2 as [H2|[H2 _]]; [| done].
    by rewrite (digest_lt_asym _ _ H1) in H2.
  - pose proof (sorted_lookup_le l i k ei ek Hs Hik Hei Hek) as H1.
    apply entry_le_spec in H1. destruct H1 as [H1|[_ H1]]; [| done].
    by rewrite Hd, digest_lt_irrefl in H1.
Qed.

End Order.

(** Claim C5.  Let the entries, one per eligible section, be sorted by
    (digest, priority), the leaders be elected with every [leader]
    field null beforehand, and the symbols of all files be redirected.
    Then no leader has a leader; in each maximal run of equal digests
    the first element has no leader and is the leader of every other
    element; and every symbol with an input section points to a
    section without leader.  The sorted vector holds the same entries;
    the entries with one digest form one run; and, the priorities
    being in range, an entry never stands after one with a larger
    digest or, the digests being equal, after one of a file with a
    larger priority value or with a larger section index in the same
    file: the leader of a run has the lowest priority of the run. *)
Theorem icf_merge_leaders (info : nat -> Z * Z) (entries0 : list Entry)
    (store : gmap nat Symbol) (tables : list (list nat)) :
  NoDup (ent_isec <$> entries0) ->
  let entries := sort_entries info entries0 in
  let leader := elect_leaders entries ∅ in
  let store' := redirect_symbols leader store tables in
  (forall s, leader !! s = None \/
     exists l, leader !! s = Some l /\ leader !! l = None) /\
  (forall i ei, run_start entries i -> entries !! i = Some ei ->
     leader !! ent_isec ei = None /\
     forall j ej, (i < j)%nat -> in_run entries i j ->
       entries !! j = Some ej ->
       leader !! ent_isec ej = Some (ent_isec ei)) /\
  (forall table p, table ∈ tables -> p ∈ table -> settled leader store' p) /\
  entries ≡ₚ entries0 /\
  (forall i k ei ek, run_start entries i -> entries !! i = Some ei ->
     entries !! k = Some ek -> ent_digest ek = ent_digest ei ->
     (i <= k)%nat /\ in_run entries i k) /\
  (priorities_in_range info entries0 ->
   forall i j ei ej, (i < j)%nat ->
     entries !! i = Some ei -> entries !! j = Some ej ->
     key_le info ei ej).
Proof.
  intros Hnd entries leader store'.
  assert (Hperm : entries ≡ₚ entries0) by apply sort_entries_perm.
  assert (Hnd' : NoDup (ent_isec <$> entries)) by (by rewrite Hperm).
  assert (Hsorted : Sorted (entry_le info) entries)
    by apply sort_entries_sorted.
  assert (Hchain : forall s l, leader !! s = Some l -> leader !! l = None)
    by (intros s l; by apply leader_has_no_leader).
  split; [| split; [| split; [| split; [| split]]]].
  - intros s. destruct (leader !! s) as [l|] eqn:Hl; [| by left].
    right. exists l. split; [done |]. by eapply Hchain.
  - intros i ei Hsi Hei. split; [by apply (run_start_no_leader entries Hnd' i ei) |].
    intros j ej Hij Hrun Hej. apply (elect_leaders_spec entries Hnd').
    by exists i, j, ei, ej.
  - intros table p Ht Hp.
    destruct (redirect_symbols_spec leader tables Hchain store) as [Hin _].
    by apply (Hin table p).
  - done.
  - intros i k ei ek Hstart Hei Hek Hd.
    destruct (sorted_run info entries i k ei ek Hsorted Hstart Hei Hek Hd)
      as (Hik & Hrun & _).
    done.
  - intros Hrange i j ei ej Hij Hei Hej.
    assert (Hin : forall k e, entries !! k = Some e ->
              0 <= (info (ent_isec e)).1 < 2 ^ 31 /\
              0 <= (info (ent_isec e)).2 < 2 ^ 32).
    { intros k e Hk. unfold priorities_in_range in Hrange.
      rewrite Forall_forall in Hrange. apply Hrange.
      rewrite <- Hperm. by eapply list_elem_of_lookup_2. }
    destruct (Hin i ei Hei) as [Hpi Hsi]. destruct (Hin j ej Hej) as [Hpj Hsj].
    pose proof (sorted_lookup_le info entries i j ei ej Hsorted
                  ltac:(lia) Hei Hej) as Hle.
    apply entry_le_spec in Hle. unfold key_le.
    destruct Hle as [Hlt|[Heq Hp]]; [left; by apply digest_lt_lex |].
    right. split; [done |]. unfold entry_priority in Hp.
    rewrite !get_priority_split in Hp by done.
    change (2 ^ 32) with 4294967296 in *. lia.
Qed.

(** The claim on [sample_entries]: sorted, the three sections with
    digest 1 stand first, section 10 before section 12 of the same
    file and both before section 21 of the file with the higher
    priority value; the run is led by section 10, and the symbols of
    sections 12 and 21 move to it. *)
Lemma icf_merge_leaders_witness :
  NoDup (ent_isec <$> sample_entries) /\
  priorities_in_range sample_info sample_entries /\
  ent_isec <$> sort_entries sample_info sample_entries = [10; 12; 21; 20]%nat /\
  elect_leaders (sort_entries sample_info sample_entries) ∅ !! 10%nat = None /\
  elect_leaders (sort_entries sample_info sample_entries) ∅ !! 21%nat
    = Some 10%nat /\
  key_le sample_info {| ent_isec := 12; ent_digest := replicate 16 1 |}
    {| ent_isec := 21; ent_digest := replicate 16 1 |} /\
  forall p,
    p ∈ [1; 0]%nat ->
    settled (elect_leaders (sort_entries sample_info sample_entries) ∅)
      (redirect_symbols
         (elect_leaders (sort_entries sample_info sample_entries) ∅)
         sample_store sample_tables) p.
Proof.
  assert (Hnd : NoDup (ent_isec <$> sample_entries)).
  { apply (bool_decide_unpack _). vm_compute. exact I. }
  assert (Hrange : priorities_in_range sample_info sample_entries).
  { repeat constructor; vm_compute; congruence. }
  destruct (icf_merge_leaders sample_info sample_entries sample_store
              sample_tables Hnd) as (_ & Hrun & Hsyms & _ & _ & Hord).
  split; [exact Hnd |]. split; [exact Hrange |].
  split; [vm_compute; reflexivity |].
  destruct (Hrun 0%nat {| ent_isec := 10; ent_digest := replicate 16 1 |})
    as [Hlead Hfollow].
  { split; [vm_compute; lia | by left]. }
  { vm_compute. reflexivity. }
  split; [exact Hlead |]. split; [| split].
  - apply (Hfollow 2%nat {| ent_isec := 21; ent_digest := replicate 16 1 |}).
    + lia.
    + split; [vm_compute; lia |]. intros k Hk.
      destruct k as [|[|[|k]]]; [reflexivity | reflexivity | reflexivity | lia].
    + vm_compute. reflexivity.
  - apply (Hord Hrange 1%nat 2%nat); [lia | vm_compute; reflexivity
                                      | vm_compute; reflexivity].
  - intros p Hp. apply (Hsyms [1; 0]%nat p); [| exact Hp].
    right. left.
Defined.
